(** * POTA notification: filter engine, novelty index and channel dispatch

    A shallow embedding of [filter.js], of [processSpots] and the channel
    functions of [main.js], and of the speech queue of [voicevox.js],
    together with the properties the specification states about them.

    JavaScript strings are modelled by [string]: a sequence of code units in
    the ASCII range, on which [toLowerCase] and [toUpperCase] act on the
    letters A-Z and a-z (call signs, modes, park references and frequencies
    are ASCII).  A property that is [undefined] or [null] is [None]. *)

From Stdlib Require Import String Ascii List ZArith Bool Arith Lia.
Import ListNotations.
Open Scope string_scope.
Open Scope list_scope.

(* ================================================================== *)
(** ** JavaScript string primitives used by the program *)

Module JS.

(** Truthiness of a string-valued property: absent and [''] are falsy. *)
Definition truthy (o : option string) : bool :=
  match o with
  | None => false
  | Some s => negb (s =? "")
  end.

(** [x || ''] on a string-valued property. *)
Definition orEmpty (o : option string) : string :=
  match o with
  | Some s => s
  | None => ""
  end.

(** Truthiness of a boolean-valued property. *)
Definition truthyb (o : option bool) : bool :=
  match o with
  | Some b => b
  | None => false
  end.

Definition lowerChar (c : ascii) : ascii :=
  let n := nat_of_ascii c in
  if ((65 <=? n) && (n <=? 90))%nat then ascii_of_nat (n + 32) else c.

Definition upperChar (c : ascii) : ascii :=
  let n := nat_of_ascii c in
  if ((97 <=? n) && (n <=? 122))%nat then ascii_of_nat (n - 32) else c.

Fixpoint toLowerCase (s : string) : string :=
  match s with
  | EmptyString => EmptyString
  | String c t => String (lowerChar c) (toLowerCase t)
  end.

Fixpoint toUpperCase (s : string) : string :=
  match s with
  | EmptyString => EmptyString
  | String c t => String (upperChar c) (toUpperCase t)
  end.

(** [text.includes(pattern)]: [pattern] occurs in [text] as a substring. *)
Fixpoint includes (text pattern : string) : bool :=
  if prefix pattern text then true
  else match text with
       | EmptyString => false
       | String _ t => includes t pattern
       end.

(** White space removed by [trim] (tab, LF, VT, FF, CR, space, NBSP). *)
Definition isWhiteSpace (c : ascii) : bool :=
  let n := nat_of_ascii c in
  (((9 <=? n) && (n <=? 13)) || (n =? 32) || (n =? 160))%nat.

Fixpoint trimStart (s : string) : string :=
  match s with
  | EmptyString => EmptyString
  | String c t => if isWhiteSpace c then trimStart t else s
  end.

(** Drops trailing white space: a character is kept when it is not white
    space or when something is kept after it. *)
Fixpoint trimEnd (s : string) : string :=
  match s with
  | EmptyString => EmptyString
  | String c t =>
      match trimEnd t with
      | EmptyString => if isWhiteSpace c then EmptyString else String c EmptyString
      | t' => String c t'
      end
  end.

Definition trim (s : string) : string := trimEnd (trimStart s).

(** [s.split(sep)[0]]: the part of [s] before the first [sep], all of [s]
    when [sep] does not occur. *)
Fixpoint splitHead (sep : ascii) (s : string) : string :=
  match s with
  | EmptyString => EmptyString
  | String c t => if Ascii.eqb c sep then EmptyString else String c (splitHead sep t)
  end.

(** [arr.slice(0, n)] for [n > 0]. *)
Definition sliceHead {A} (n : Z) (l : list A) : list A :=
  firstn (Z.to_nat n) l.

(** [arr.slice(-n)] for [n > 0]: the last [n] elements, all of them when
    there are fewer. *)
Definition sliceLast {A} (n : nat) (l : list A) : list A :=
  skipn (length l - n) l.

End JS.

(* ================================================================== *)
(** ** filter.js *)

(** [FilterCondition]; every property may be missing from the stored JSON. *)
Record FilterCondition := mkCondition {
  value : option string;
  type : option string;
  exclude : option bool;
  enabled : option bool
}.

(** [FieldFilter] *)
Record FieldFilter := mkFieldFilter {
  conditions : option (list FilterCondition);
  operator : option string
}.

(** [FilterConfig], with the dispatch settings [main.js] keeps in the same
    document. *)
Record FilterConfig := mkFilterConfig {
  filter_reference : option FieldFilter;
  filter_comments : option FieldFilter;
  filter_mode : option FieldFilter;
  filter_frequency : option FieldFilter;
  ignoreOtherSpotters : option bool;
  notificationSoundPath : option string;
  maxNotificationCount : option Z;
  maxPopupCount : option Z
}.

(** A spot as delivered by the feed. *)
Record Spot := mkSpot {
  spotId : Z;
  activator : option string;
  spotter : option string;
  reference : option string;
  comments : option string;
  mode : option string;
  frequency : option string
}.

(** The tracked fields, [['reference', 'comments', 'mode', 'frequency']]. *)
Inductive Field := Reference | Comments | Mode | Frequency.

Definition fields : list Field := [Reference; Comments; Mode; Frequency].

(** [spot[field]] *)
Definition spotField (spot : Spot) (field : Field) : option string :=
  match field with
  | Reference => reference spot
  | Comments => comments spot
  | Mode => mode spot
  | Frequency => frequency spot
  end.

(** [filterConfig[field]] *)
Definition configField (filterConfig : FilterConfig) (field : Field)
  : option FieldFilter :=
  match field with
  | Reference => filter_reference filterConfig
  | Comments => filter_comments filterConfig
  | Mode => filter_mode filterConfig
  | Frequency => filter_frequency filterConfig
  end.

Definition caseInsensitiveEquals (a b : option string) : bool :=
  match a, b with
  | Some a, Some b => JS.toLowerCase a =? JS.toLowerCase b
  | _, _ => false
  end.

Definition caseInsensitiveContains (text pattern : option string) : bool :=
  match text, pattern with
  | Some text, Some pattern =>
      JS.includes (JS.toLowerCase text) (JS.toLowerCase pattern)
  | _, _ => false
  end.

Definition normalizeCallsign (callsign : option string) : string :=
  if negb (JS.truthy callsign) then ""
  else
    let withoutSlash := JS.trim (JS.splitHead "/"%char (JS.orEmpty callsign)) in
    JS.toUpperCase withoutSlash.

Definition callsignsMatch (activator spotter : option string) : bool :=
  if negb (JS.truthy activator) || negb (JS.truthy spotter) then false
  else
    let normalizedActivator := normalizeCallsign activator in
    let normalizedSpotter := normalizeCallsign spotter in
    normalizedActivator =? normalizedSpotter.

(** [c.enabled !== false] *)
Definition notDisabled (c : FilterCondition) : bool :=
  match enabled c with
  | Some false => false
  | _ => true
  end.

Definition typeIs (c : FilterCondition) (t : string) : bool :=
  match type c with
  | Some s => s =? t
  | None => false
  end.

Definition checkConditionMatch (fieldValue : option string)
  (condition : option FilterCondition) : bool :=
  match condition with
  | None => false
  | Some condition =>
      if negb (JS.truthy (value condition)) then false
      else if typeIs condition "exact" then
        caseInsensitiveEquals fieldValue (value condition)
      else if typeIs condition "contains" then
        caseInsensitiveContains fieldValue (value condition)
      else false
  end.

Definition isInclude (c : FilterCondition) : bool :=
  negb (JS.truthyb (exclude c)) && notDisabled c.

Definition isExclude (c : FilterCondition) : bool :=
  JS.truthyb (exclude c) && notDisabled c.

Definition applyFieldFilter (fieldValue : option string)
  (fieldFilter : option FieldFilter) : bool :=
  match fieldFilter with
  | None => true
  | Some fieldFilter =>
      match conditions fieldFilter with
      | None => true
      | Some [] => true
      | Some conds =>
          let includeConditions := filter isInclude conds in
          match includeConditions with
          | [] => true
          | _ =>
              let operator :=
                if JS.truthy (operator fieldFilter)
                then JS.orEmpty (operator fieldFilter) else "or" in
              if operator =? "and" then
                forallb (fun condition => checkConditionMatch fieldValue (Some condition))
                        includeConditions
              else
                existsb (fun condition => checkConditionMatch fieldValue (Some condition))
                        includeConditions
          end
      end
  end.

(** The enabled exclude conditions of one field ([[]] when the field has no
    filter or no condition list). *)
Definition excludeConditions (filterConfig : FilterConfig) (field : Field)
  : list FilterCondition :=
  match configField filterConfig field with
  | None => []
  | Some fieldFilter =>
      match conditions fieldFilter with
      | None => []
      | Some conds => filter isExclude conds
      end
  end.

(** The exclude loop of [applyFilter]: [true] when it reaches its
    [return false]. *)
Definition excludeHit (spot : Spot) (filterConfig : FilterConfig) : bool :=
  existsb
    (fun field =>
       existsb
         (fun condition =>
            checkConditionMatch (Some (JS.orEmpty (spotField spot field)))
                                (Some condition))
         (excludeConditions filterConfig field))
    fields.

Definition applyFilter (spot : Spot) (filterConfig : option FilterConfig) : bool :=
  match filterConfig with
  | None => true
  | Some filterConfig =>
      if JS.truthyb (ignoreOtherSpotters filterConfig)
         && negb (callsignsMatch (activator spot) (spotter spot))
      then false
      else if excludeHit spot filterConfig then false
      else
        let referencePass :=
          applyFieldFilter (Some (JS.orEmpty (reference spot)))
                           (filter_reference filterConfig) in
        let commentsPass :=
          applyFieldFilter (Some (JS.orEmpty (comments spot)))
                           (filter_comments filterConfig) in
        let modePass :=
          applyFieldFilter (Some (JS.orEmpty (mode spot)))
                           (filter_mode filterConfig) in
        let frequencyPass :=
          applyFieldFilter (Some (JS.orEmpty (frequency spot)))
                           (filter_frequency filterConfig) in
        referencePass && commentsPass && modePass && frequencyPass
  end.

(* ================================================================== *)
(** ** main.js: session state, channels and [processSpots] *)

(** [notificationSettings] *)
Record NotificationSettings := mkNotificationSettings {
  notificationEnabled : bool;
  popupEnabled : bool;
  soundEnabled : bool;
  voicevoxEnabled : bool
}.

(** The part of the VOICEVOX settings document that steers the speech queue;
    the remaining keys only parametrise the synthesis request. *)
Record VoicevoxSettings := mkVoicevoxSettings {
  speakerId : option Z;
  maxSpotsPerRead : option Z
}.

(** The globals of [main.js] that [processSpots] reads and writes.
    [knownSpotIds] is a JavaScript [Set]: it iterates in insertion order, so
    it is kept as the list of its members, oldest first. *)
Record AppState := mkAppState {
  knownSpotIds : list Z;
  filterConfig : option FilterConfig;
  notificationSettings : NotificationSettings
}.

(** Outcome of one [httpRequest]: resolved with a body, or rejected with an
    error message (a time-out rejects with ['Request timeout']). *)
Inductive HttpOutcome :=
| HttpOk (body : string)
| HttpError (message : string).

(** What the outside world answers during one call of [processSpots]; the
    requests and the playback of the speech queue are indexed by the position
    of the item in the queue. *)
Record World := mkWorld {
  audioTarget : bool;              (* getAudioTargetWebContents() is not null *)
  notificationSupported : bool;    (* Notification.isSupported() *)
  voicevoxSettings : VoicevoxSettings;  (* loadVoicevoxSettings(file) *)
  audioQuery : nat -> HttpOutcome;      (* POST /audio_query *)
  synthesis : nat -> HttpOutcome;       (* POST /synthesis *)
  playback : nat -> option string       (* the audio promise: [None] when it
                                           resolves, the reason when it rejects *)
}.

(** The observable steps of a poll cycle, in the order they happen. *)
Inductive Event :=
| MarkSeen (id : Z)                       (* knownSpotIds.add(spotId) *)
| FilterEval (spot : Spot)                (* applyFilter(spot, filterConfig) *)
| PlayNotificationSound (path : string)   (* playNotificationSound() *)
| DesktopNotification (spot : Spot)       (* notification.show() *)
| PopupWindow (spot : Spot)               (* new BrowserWindow for the popup *)
| Synthesize (spot : Spot)                (* synthesizeVoicevox(text of spot) *)
| PlaySpeech (audioData : string)         (* playback in the target window *)
| LogError (message : string).            (* console.error *)

(** [knownSpotIds.has(id)] *)
Definition setHas (known : list Z) (id : Z) : bool :=
  existsb (Z.eqb id) known.

(** [knownSpotIds.add(id)] *)
Definition setAdd (known : list Z) (id : Z) : list Z :=
  if setHas known id then known else known ++ [id].

(** The [for (const spot of spots)] loop of [processSpots]: the index, the
    spots pushed on [filteredSpots] and the steps taken. *)
Fixpoint collectNewSpots (filterConfig : option FilterConfig)
  (spots : list Spot) (known : list Z) : list Z * list Spot * list Event :=
  match spots with
  | [] => (known, [], [])
  | spot :: rest =>
      if negb (setHas known (spotId spot)) then
        let '(known', filteredSpots, steps) :=
          collectNewSpots filterConfig rest (setAdd known (spotId spot)) in
        match filterConfig with
        | None => (known', filteredSpots, MarkSeen (spotId spot) :: steps)
        | Some _ =>
            (known',
             if applyFilter spot filterConfig
             then spot :: filteredSpots else filteredSpots,
             MarkSeen (spotId spot) :: FilterEval spot :: steps)
        end
      else collectNewSpots filterConfig rest known
  end.

(** [filterConfig?.notificationSoundPath] *)
Definition soundPath (filterConfig : option FilterConfig) : option string :=
  match filterConfig with
  | Some c => notificationSoundPath c
  | None => None
  end.

(** [handleNotificationSound]; [playNotificationSound] is the playback
    routine it hands over to. *)
Definition handleNotificationSound (st : AppState) : list Event :=
  if negb (soundEnabled (notificationSettings st)) then []
  else
    let hasCustomSound := JS.truthy (soundPath (filterConfig st)) in
    if negb hasCustomSound then []
    else [PlayNotificationSound (JS.orEmpty (soundPath (filterConfig st)))].

Definition showNotification (st : AppState) (w : World) (spot : Spot)
  : list Event :=
  if negb (notificationEnabled (notificationSettings st)) then []
  else if notificationSupported w then [DesktopNotification spot]
  else [].

Definition showPopupNotification (st : AppState) (spot : Spot) : list Event :=
  if negb (popupEnabled (notificationSettings st)) then []
  else [PopupWindow spot].

(** An integer cap read as [x || 0]. *)
Definition orZero (o : option Z) : Z :=
  match o with
  | Some n => n
  | None => 0%Z
  end.

(** [const notificationSpots] of [processSpots] *)
Definition notificationSpots (filterConfig : option FilterConfig)
  (filteredSpots : list Spot) : list Spot :=
  let maxNotificationCount :=
    match filterConfig with
    | Some c => orZero (maxNotificationCount c)
    | None => 0%Z
    end in
  if (0 <? maxNotificationCount)%Z
  then JS.sliceHead maxNotificationCount filteredSpots
  else filteredSpots.

(** [const popupSpots] of [processSpots] *)
Definition popupSpots (filterConfig : option FilterConfig)
  (filteredSpots : list Spot) : list Spot :=
  let maxPopupCount :=
    match filterConfig with
    | Some c => orZero (maxPopupCount c)
    | None => 0%Z
    end in
  if (0 <? maxPopupCount)%Z
  then JS.sliceHead maxPopupCount filteredSpots
  else filteredSpots.

(* ================================================================== *)
(** ** voicevox.js: synthesis and the speech queue *)

(** The object [synthesizeVoicevox] resolves with: [{success: true,
    audioData}] or [{success: false, error}]. *)
Inductive SynthResult :=
| SynthOk (audioData : string)
| SynthFail (error : string).

(** [error.message || '...']: the message, or the fixed text when empty. *)
Definition errorMessage (message : string) : string :=
  if message =? "" then "音声合成に失敗しました" else message.

(** [synthesizeVoicevox] for the [k]-th item: both requests sit in one
    [try]; whatever is thrown there becomes [{success: false}].  The audio
    is kept as the response body (its base64 text is empty exactly when the
    body is). *)
Definition synthesizeVoicevox (w : World) (k : nat) : SynthResult :=
  match audioQuery w k with
  | HttpError message => SynthFail (errorMessage message)
  | HttpOk _ =>
      match synthesis w k with
      | HttpError message => SynthFail (errorMessage message)
      | HttpOk audioData => SynthOk audioData
      end
  end.

(** The [for (const spot of spotsToRead)] loop of
    [speakMultipleSpotsWithVoicevox], from queue position [k] on.  The second
    component is [Some error] when the awaited playback rejected, which
    leaves the loop through the enclosing [catch]. *)
Fixpoint speakLoop (w : World) (k : nat) (spotsToRead : list Spot)
  : list Event * option string :=
  match spotsToRead with
  | [] => ([], None)
  | spot :: rest =>
      match synthesizeVoicevox w k with
      | SynthOk audioData =>
          if negb (audioData =? "") then
            match playback w k with
            | None =>
                let '(steps, thrown) := speakLoop w (S k) rest in
                (Synthesize spot :: PlaySpeech audioData :: steps, thrown)
            | Some reason =>
                ([Synthesize spot; PlaySpeech audioData], Some reason)
            end
          else
            let '(steps, thrown) := speakLoop w (S k) rest in
            (Synthesize spot :: steps, thrown)
      | SynthFail error =>
          let '(steps, thrown) := speakLoop w (S k) rest in
          (Synthesize spot :: LogError error :: steps, thrown)
      end
  end.

(** [!voicevoxSettings.speakerId]: [null] and [0] count as not set. *)
Definition speakerSet (s : VoicevoxSettings) : bool :=
  match speakerId s with
  | Some n => negb (n =? 0)%Z
  | None => false
  end.

(** [const spotsToRead] *)
Definition spotsToRead (s : VoicevoxSettings) (spots : list Spot) : list Spot :=
  let maxSpotsPerRead := orZero (maxSpotsPerRead s) in
  if (0 <? maxSpotsPerRead)%Z then JS.sliceHead maxSpotsPerRead spots else spots.

(** [speakMultipleSpotsWithVoicevox(spots, file, voicevoxEnabled, target)],
    called with a target window. *)
Definition speakMultipleSpotsWithVoicevox (w : World) (spots : list Spot)
  (voicevoxEnabled : bool) : list Event :=
  if negb voicevoxEnabled || (length spots =? 0)%nat then []
  else
    let voicevoxSettings := voicevoxSettings w in
    if negb (speakerSet voicevoxSettings) then []
    else
      match speakLoop w 0 (spotsToRead voicevoxSettings spots) with
      | (steps, None) => steps
      | (steps, Some error) => steps ++ [LogError error]
      end.

(* ================================================================== *)
(** ** main.js: [processSpots] *)

(** The speech step of [processSpots]: [if (targetWebContents) await
    speakMultipleSpotsWithVoicevox(filteredSpots, ...)]. *)
Definition speechSteps (st : AppState) (w : World) (filteredSpots : list Spot)
  : list Event :=
  if audioTarget w
  then speakMultipleSpotsWithVoicevox w filteredSpots
         (voicevoxEnabled (notificationSettings st))
  else [].

(** The body of [if (filteredSpots.length > 0) { ... }]. *)
Definition dispatch (st : AppState) (w : World) (filteredSpots : list Spot)
  : list Event :=
  handleNotificationSound st
  ++ flat_map (showNotification st w)
       (notificationSpots (filterConfig st) filteredSpots)
  ++ flat_map (showPopupNotification st)
       (popupSpots (filterConfig st) filteredSpots)
  ++ speechSteps st w filteredSpots.

(** The bound on [knownSpotIds] at the end of [processSpots]. *)
Definition evict (known : list Z) : list Z :=
  if (1000 <? length known)%nat then JS.sliceLast 1000 known else known.

Definition processSpots (st : AppState) (w : World) (spots : list Spot)
  : AppState * list Event :=
  let '(known, filteredSpots, steps) :=
    collectNewSpots (filterConfig st) spots (knownSpotIds st) in
  let channelSteps :=
    if (0 <? length filteredSpots)%nat then dispatch st w filteredSpots else [] in
  (mkAppState (evict known) (filterConfig st) (notificationSettings st),
   steps ++ channelSteps).

(** Successive poll cycles, each with its batch and what the world answers
    during it. *)
Fixpoint runCycles (st : AppState) (cycles : list (World * list Spot))
  : AppState * list Event :=
  match cycles with
  | [] => (st, [])
  | (w, spots) :: rest =>
      let '(st1, steps1) := processSpots st w spots in
      let '(st2, steps2) := runCycles st1 rest in
      (st2, steps1 ++ steps2)
  end.

(** Callsign equivalence in the words of the specification: each callsign is
    cut before its first [/], trimmed and upper-cased, and the results are
    compared for equality. *)
Definition specNormalize (callsign : string) : string :=
  JS.toUpperCase (JS.trim (JS.splitHead "/"%char callsign)).

Definition callsignEquivalent (reporter subject : option string) : bool :=
  specNormalize (JS.orEmpty reporter) =? specNormalize (JS.orEmpty subject).

(** A spot that carries nothing but its identity. *)
Definition bareSpot (id : Z) : Spot :=
  mkSpot id None None None None None None.

(** A filter configuration without any condition (the default one of
    [loadConfig]). *)
Definition emptyFieldFilter : FieldFilter := mkFieldFilter (Some []) (Some "or").

Definition defaultConfig : FilterConfig :=
  mkFilterConfig (Some emptyFieldFilter) (Some emptyFieldFilter)
                 (Some emptyFieldFilter) (Some emptyFieldFilter)
                 (Some false) None (Some 0%Z) (Some 0%Z).

(** [filterConfig] with [ignoreOtherSpotters] switched off. *)
Definition withoutReporterCheck (c : FilterConfig) : FilterConfig :=
  mkFilterConfig (filter_reference c) (filter_comments c) (filter_mode c)
                 (filter_frequency c) (Some false) (notificationSoundPath c)
                 (maxNotificationCount c) (maxPopupCount c).

(* ------------------------------------------------------------------ *)
(** ** Reading a trace *)

(** The spots a desktop notification was shown for, in order. *)
Definition alertsOf (trace : list Event) : list Spot :=
  flat_map (fun e => match e with DesktopNotification s => [s] | _ => [] end)
           trace.

(** The spots a popup window was opened for, in order. *)
Definition popupsOf (trace : list Event) : list Spot :=
  flat_map (fun e => match e with PopupWindow s => [s] | _ => [] end) trace.

(** The identities added to the index, in order. *)
Definition marksOf (trace : list Event) : list Z :=
  flat_map (fun e => match e with MarkSeen id => [id] | _ => [] end) trace.

(** The sound files handed to playback, in order. *)
Definition soundsOf (trace : list Event) : list string :=
  flat_map (fun e => match e with PlayNotificationSound p => [p] | _ => [] end)
           trace.

(** A step taken by one of the four channels, as opposed to the
    bookkeeping of the novelty loop. *)
Definition isChannelStep (e : Event) : bool :=
  match e with
  | MarkSeen _ | FilterEval _ => false
  | _ => true
  end.

(** A step of the sound, alert or popup channel. *)
Definition isOtherChannelStep (e : Event) : bool :=
  match e with
  | PlayNotificationSound _ | DesktopNotification _ | PopupWindow _ => true
  | _ => false
  end.

(** The step is about the record identity [id]. *)
Definition concerns (id : Z) (e : Event) : bool :=
  match e with
  | MarkSeen i => (i =? id)%Z
  | FilterEval s | DesktopNotification s | PopupWindow s | Synthesize s =>
      (spotId s =? id)%Z
  | _ => false
  end.

(** [filteredSpots] as the loop of [processSpots] leaves it. *)
Definition newFilteredSpots (st : AppState) (spots : list Spot) : list Spot :=
  snd (fst (collectNewSpots (filterConfig st) spots (knownSpotIds st))).

(** The steps of the novelty loop of [processSpots]. *)
Definition loopSteps (st : AppState) (spots : list Spot) : list Event :=
  snd (collectNewSpots (filterConfig st) spots (knownSpotIds st)).

(** The index as the loop of [processSpots] leaves it, before the bound is
    applied. *)
Definition loopIndex (st : AppState) (spots : list Spot) : list Z :=
  fst (fst (collectNewSpots (filterConfig st) spots (knownSpotIds st))).

(** A cap in the words of the specification: the first [cap] entries, all of
    them when the cap is 0. *)
Definition headOrAll {A} (cap : Z) (l : list A) : list A :=
  if (cap =? 0)%Z then l else firstn (Z.to_nat cap) l.

(** The identities of all records of the given poll cycles, in feed order. *)
Definition idsOf (cycles : list (World * list Spot)) : list Z :=
  flat_map (fun c => map spotId (snd c)) cycles.

(* ------------------------------------------------------------------ *)
(** ** Concrete configurations and records used as examples *)

(** The [mode] field excludes an exact "CW" and also asks for a mode that
    contains "CW". *)
Definition cwExclude : FilterCondition :=
  mkCondition (Some "CW") (Some "exact") (Some true) (Some true).

Definition cwInclude : FilterCondition :=
  mkCondition (Some "CW") (Some "contains") (Some false) (Some true).

Definition cwModeFilter : FieldFilter :=
  mkFieldFilter (Some [cwExclude; cwInclude]) (Some "or").

Definition cwConfig : FilterConfig :=
  mkFilterConfig (Some emptyFieldFilter) (Some emptyFieldFilter)
                 (Some cwModeFilter) (Some emptyFieldFilter)
                 (Some false) None (Some 0%Z) (Some 0%Z).

Definition cwSpot : Spot :=
  mkSpot 1 (Some "JK1AZT/8") (Some "JA1XYZ") (Some "JP-0001") (Some "")
         (Some "CW") (Some "7030").

(** [{value: "ft8", type: "exact"}], and the same condition switched off. *)
Definition ft8Exact : FilterCondition :=
  mkCondition (Some "ft8") (Some "exact") None None.

Definition ft8ExactDisabled : FilterCondition :=
  mkCondition (Some "ft8") (Some "exact") None (Some false).

(** [{value: "x", type: "contains"}] *)
Definition xContains : FilterCondition :=
  mkCondition (Some "x") (Some "contains") None None.

(** A condition whose type is outside the two the matcher knows. *)
Definition regexCondition : FilterCondition :=
  mkCondition (Some "CW") (Some "regex") (Some true) (Some true).

(** [c] with its [enabled] flag replaced. *)
Definition setEnabled (e : option bool) (c : FilterCondition) : FilterCondition :=
  mkCondition (value c) (type c) (exclude c) e.

(** A record whose two callsigns are both the empty text, under a
    configuration that only switches the reporter check on. *)
Definition blankCallsignSpot : Spot :=
  mkSpot 7 (Some "") (Some "") (Some "JP-0001") None (Some "SSB") (Some "7144").

Definition reporterCheckConfig : FilterConfig :=
  mkFilterConfig (Some emptyFieldFilter) (Some emptyFieldFilter)
                 (Some emptyFieldFilter) (Some emptyFieldFilter)
                 (Some true) None (Some 0%Z) (Some 0%Z).

(** A self-spot: the activator reports from a portable location. *)
Definition selfSpot : Spot :=
  mkSpot 8 (Some "JK1AZT/8") (Some "jk1azt") (Some "JP-0001") None
         (Some "SSB") (Some "7144").

(** A field filter all of whose conditions are switched off. *)
Definition allDisabledFilter : FieldFilter :=
  mkFieldFilter
    (Some [mkCondition (Some "FT8") (Some "exact") (Some false) (Some false);
           mkCondition (Some "CW") (Some "contains") (Some false) (Some false)])
    (Some "and").

(** All four channels switched on, a sound file configured, caps of one
    alert and three popups. *)
Definition allOn : NotificationSettings :=
  mkNotificationSettings true true true true.

Definition cappedConfig : FilterConfig :=
  mkFilterConfig (Some emptyFieldFilter) (Some emptyFieldFilter)
                 (Some emptyFieldFilter) (Some emptyFieldFilter)
                 (Some false) (Some "C:/sounds/alert.wav") (Some 1%Z) (Some 3%Z).

Definition cappedState : AppState := mkAppState [] (Some cappedConfig) allOn.

(** A world with a window, notification support and a speech engine that
    answers every request; no speaker is chosen. *)
Definition calmWorld : World :=
  mkWorld true true (mkVoicevoxSettings None None)
          (fun _ => HttpOk "{}") (fun _ => HttpOk "RIFF") (fun _ => None).

Definition fiveSpots : list Spot := map bareSpot [11; 12; 13; 14; 15]%Z.

(** A session that starts with an empty index, accepts every record and has
    every channel switched on. *)
Definition freshState : AppState := mkAppState [] (Some defaultConfig) allOn.

(** 1001 records with the identities 0, 1, ..., 1000. *)
Definition thousandAndOne : list Spot :=
  map (fun n => bareSpot (Z.of_nat n)) (seq 0 1001).

(** The 1001 records in one batch, then the first of them once more. *)
Definition evictionCycles : list (World * list Spot) :=
  [(calmWorld, thousandAndOne); (calmWorld, [bareSpot 0])].

(** The 1001 records one per poll cycle. *)
Definition oneByOneCycles : list (World * list Spot) :=
  map (fun s => (calmWorld, [s])) thousandAndOne.

(** A world in which the request for the second item of the speech queue
    times out, and one in which the engine refuses its synthesis. *)
Definition timeoutWorld : World :=
  mkWorld true true (mkVoicevoxSettings (Some 3%Z) (Some 0%Z))
          (fun k => if (k =? 1)%nat then HttpError "Request timeout"
                    else HttpOk "{}")
          (fun _ => HttpOk "RIFF") (fun _ => None).

Definition refusingWorld : World :=
  mkWorld true true (mkVoicevoxSettings (Some 3%Z) (Some 0%Z))
          (fun _ => HttpOk "{}")
          (fun k => if (k =? 1)%nat then HttpError "HTTP 500: " else HttpOk "RIFF")
          (fun _ => None).


(* ------------------------------------------------------------------ *)
(** ** Edits of a configuration, used to compare verdicts *)


(** [c] with its type replaced. *)
Definition setType (t : option string) (c : FilterCondition) : FilterCondition :=
  mkCondition (value c) t (exclude c) (enabled c).

(** A field filter, and a configuration, without the conditions that are
    switched off. *)
Definition dropDisabledField (fieldFilter : option FieldFilter)
  : option FieldFilter :=
  match fieldFilter with
  | None => None
  | Some f =>
      Some (mkFieldFilter
              (match conditions f with
               | None => None
               | Some conds => Some (filter notDisabled conds)
               end)
              (operator f))
  end.

Definition dropDisabled (c : FilterConfig) : FilterConfig :=
  mkFilterConfig (dropDisabledField (filter_reference c))
                 (dropDisabledField (filter_comments c))
                 (dropDisabledField (filter_mode c))
                 (dropDisabledField (filter_frequency c))
                 (ignoreOtherSpotters c) (notificationSoundPath c)
                 (maxNotificationCount c) (maxPopupCount c).

(** A configuration that asks for a reference containing "JP", a comment
    containing "pota" and the mode "SSB", and a record that meets the first
    and the last only. *)
Definition oneCondition (v t : string) : FieldFilter :=
  mkFieldFilter (Some [mkCondition (Some v) (Some t) (Some false) (Some true)])
                (Some "or").

Definition threeFieldConfig : FilterConfig :=
  mkFilterConfig (Some (oneCondition "JP" "contains"))
                 (Some (oneCondition "pota" "contains"))
                 (Some (oneCondition "SSB" "exact"))
                 (Some emptyFieldFilter)
                 (Some false) None (Some 0%Z) (Some 0%Z).

Definition ssbSpot : Spot :=
  mkSpot 9 (Some "JK1AZT/8") (Some "JA1XYZ") (Some "JP-1001") (Some "ssb")
         (Some "SSB") (Some "7144").

(** A mode filter that asks for "FT" and for "8". *)
Definition ft8Conditions : list FilterCondition :=
  [mkCondition (Some "FT") (Some "contains") (Some false) (Some true);
   mkCondition (Some "8") (Some "contains") None None].

(** A configuration whose only conditions are switched off. *)
Definition allDisabledConfig : FilterConfig :=
  mkFilterConfig (Some emptyFieldFilter) None
                 (Some allDisabledFilter) (Some (mkFieldFilter None None))
                 None None (Some 0%Z) (Some 0%Z).

(* ------------------------------------------------------------------ *)
(** ** main.js and voicevox.js: what the claims' definitions leave out *)

(** [shouldSilent] of [showNotification]: the desktop notification is shown
    without the system sound when a custom sound is configured or the sound
    channel is off. *)
Definition shouldSilent (st : AppState) : bool :=
  let hasCustomSound := JS.truthy (soundPath (filterConfig st)) in
  let soundEnabled := soundEnabled (notificationSettings st) in
  hasCustomSound || negb soundEnabled.

(** The settings [loadVoicevoxSettings] returns when the file cannot be
    read or parsed. *)
Definition defaultVoicevoxSettings : VoicevoxSettings :=
  mkVoicevoxSettings None (Some 0%Z).

(** [loadVoicevoxSettings]: the parsed document, or the defaults. *)
Definition loadVoicevoxSettings (file : option VoicevoxSettings)
  : VoicevoxSettings :=
  match file with
  | Some settings => settings
  | None => defaultVoicevoxSettings
  end.

(** The spots handed to synthesis, in order. *)
Definition synthesizedOf (trace : list Event) : list Spot :=
  flat_map (fun e => match e with Synthesize s => [s] | _ => [] end) trace.

(** A world in which the playback of the second item of the speech queue
    is rejected. *)
Definition rejectingWorld : World :=
  mkWorld true true (mkVoicevoxSettings (Some 3%Z) (Some 2%Z))
          (fun _ => HttpOk "{}") (fun _ => HttpOk "RIFF")
          (fun k => if (k =? 1)%nat then Some "NotAllowedError" else None).

(* ------------------------------------------------------------------ *)
(** ** Text helpers of voicevox.js and main.js

    The Japanese words the program inserts are kept as the bytes of their
    UTF-8 text; none of these bytes is an ASCII character. *)

(** [s.replace(/c/g, replacement)] for a one-character pattern and a
    replacement text without [$]. *)
Fixpoint replaceChar (pattern : ascii) (replacement : string) (s : string)
  : string :=
  match s with
  | EmptyString => EmptyString
  | String c t =>
      if Ascii.eqb c pattern
      then String.append replacement (replaceChar pattern replacement t)
      else String c (replaceChar pattern replacement t)
  end.

(** The pattern [[0-9]]. *)
Definition isDigit (c : ascii) : bool :=
  let n := nat_of_ascii c in ((48 <=? n) && (n <=? 57))%nat.

(** [numberMap] of [convertNumbersToEnglish] *)
Definition numberMap (c : ascii) : option string :=
  if Ascii.eqb c "0" then Some "ゼロ"
  else if Ascii.eqb c "1" then Some "ワン"
  else if Ascii.eqb c "2" then Some "ツー"
  else if Ascii.eqb c "3" then Some "スリー"
  else if Ascii.eqb c "4" then Some "フォー"
  else if Ascii.eqb c "5" then Some "ファイブ"
  else if Ascii.eqb c "6" then Some "シックス"
  else if Ascii.eqb c "7" then Some "セブン"
  else if Ascii.eqb c "8" then Some "エイト"
  else if Ascii.eqb c "9" then Some "ナイン"
  else None.

(** The callback [(match) => numberMap[match] || match]. *)
Definition digitWord (c : ascii) : string :=
  if JS.truthy (numberMap c) then JS.orEmpty (numberMap c)
  else String c EmptyString.

(** [text.replace(/[0-9]/g, callback)] *)
Fixpoint replaceDigits (text : string) : string :=
  match text with
  | EmptyString => EmptyString
  | String c t =>
      if isDigit c then String.append (digitWord c) (replaceDigits t)
      else String c (replaceDigits t)
  end.

Definition convertNumbersToEnglish (text : string) : string :=
  if text =? "" then text else replaceDigits text.

(** The activator as [generateVoicevoxText] speaks it. *)
Definition spokenActivator (portableEnabled numberEnglishEnabled : bool)
  (activator : option string) : string :=
  let activator := JS.orEmpty activator in
  let activator :=
    if portableEnabled then replaceChar "/" "ポータブル" activator
    else activator in
  if numberEnglishEnabled then convertNumbersToEnglish activator
  else activator.




(** [escapeHtml] of main.js: five replacements, one after the other. *)
Definition escapeHtml (text : option string) : string :=
  if negb (JS.truthy text) then ""
  else
    replaceChar "'" "&#039;"
      (replaceChar "034" "&quot;"
         (replaceChar ">" "&gt;"
            (replaceChar "<" "&lt;"
               (replaceChar "&" "&amp;" (JS.orEmpty text))))).

(** The entity one character is escaped to. *)
Definition escapeOne (c : ascii) : string :=
  if Ascii.eqb c "&" then "&amp;"
  else if Ascii.eqb c "<" then "&lt;"
  else if Ascii.eqb c ">" then "&gt;"
  else if Ascii.eqb c "034" then "&quot;"
  else if Ascii.eqb c "'" then "&#039;"
  else String c EmptyString.

(** A text escaped character by character. *)
Fixpoint escapeEach (s : string) : string :=
  match s with
  | EmptyString => EmptyString
  | String c t => String.append (escapeOne c) (escapeEach t)
  end.

(** The characters HTML gives a meaning to inside text and attributes. *)
Definition isMarkup (c : ascii) : bool :=
  Ascii.eqb c "<" || Ascii.eqb c ">" || Ascii.eqb c "034" || Ascii.eqb c "'".

(** A text in which white space occurs only as single spaces; with [inRun]
    the text must not begin with one either. *)
Fixpoint spaced (inRun : bool) (s : string) : bool :=
  match s with
  | EmptyString => true
  | String c t =>
      if JS.isWhiteSpace c
      then Ascii.eqb c " " && negb inRun && spaced true t
      else spaced false t
  end.

(* ------------------------------------------------------------------ *)
(** ** main.js: [loadConfig] *)

(** What reading and parsing the configuration file gives: a document, or
    a failure - the file is missing, or unreadable, or not a JSON object. *)
Inductive ReadResult :=
| Parsed (document : FilterConfig)
| Missing
| Broken.

(** The keys [loadConfig] fills in when the document lacks them.  (A key
    stored as [null] is left alone by the code; every reader of these keys
    treats [null] like the value filled in here.) *)
Definition fillDefaults (c : FilterConfig) : FilterConfig :=
  mkFilterConfig
    (filter_reference c) (filter_comments c) (filter_mode c)
    (filter_frequency c)
    (match ignoreOtherSpotters c with None => Some false | v => v end)
    (notificationSoundPath c)
    (match maxNotificationCount c with None => Some 0%Z | v => v end)
    (match maxPopupCount c with None => Some 0%Z | v => v end).

(** [loadConfig]: the value it leaves in [filterConfig]. *)
Definition loadConfig (file : ReadResult) : FilterConfig :=
  match file with
  | Parsed document => fillDefaults document
  | Missing => defaultConfig
  | Broken => defaultConfig
  end.

(* ------------------------------------------------------------------ *)
(** ** The settings screen (settings.js): editing the condition lists *)

(** The condition [addCondition] pushes. *)
Definition newCondition : FilterCondition :=
  mkCondition (Some "") (Some "contains") (Some false) (Some true).

(** [addCondition]: [conditions.push({...})]. *)
Definition addCondition (conds : list FilterCondition) : list FilterCondition :=
  conds ++ [newCondition].

(** [removeCondition]: nothing when there is no condition at [index], else
    [conditions.splice(index, 1)]. *)
Definition removeCondition (conds : list FilterCondition) (index : nat)
  : list FilterCondition :=
  if (index <? length conds)%nat
  then firstn index conds ++ skipn (S index) conds
  else conds.

(** The property and value an [onchange] handler of a condition row passes
    to [updateCondition]. *)
Inductive Edit :=
| EditEnabled (checked : bool)
| EditValue (text : string)
| EditType (choice : string)
| EditExclude (checked : bool).

(** [conditions[index][property] = value] *)
Definition applyEdit (e : Edit) (c : FilterCondition) : FilterCondition :=
  match e with
  | EditEnabled b => mkCondition (value c) (type c) (exclude c) (Some b)
  | EditValue v => mkCondition (Some v) (type c) (exclude c) (enabled c)
  | EditType t => mkCondition (value c) (Some t) (exclude c) (enabled c)
  | EditExclude b => mkCondition (value c) (type c) (Some b) (enabled c)
  end.

(** [updateCondition]: nothing when there is no condition at [index]. *)
Fixpoint updateCondition (conds : list FilterCondition) (index : nat) (e : Edit)
  : list FilterCondition :=
  match conds, index with
  | [], _ => []
  | c :: rest, O => applyEdit e c :: rest
  | c :: rest, S i => c :: updateCondition rest i e
  end.

(** The test [saveSettings] keeps a condition by:
    [c.value && c.value.trim() !== '']. *)
Definition hasPattern (c : FilterCondition) : bool :=
  JS.truthy (value c) && negb (JS.trim (JS.orEmpty (value c)) =? "").

(** The condition list [saveSettings] stores. *)
Definition savedConditions (conds : list FilterCondition)
  : list FilterCondition :=
  filter hasPattern conds.

(** [renderSettings]: a condition without the key [enabled] gets
    [enabled = true]; [None] is the missing key here. *)
Definition defaultEnabled (c : FilterCondition) : FilterCondition :=
  match enabled c with
  | None => mkCondition (value c) (type c) (exclude c) (Some true)
  | Some _ => c
  end.

Definition renderedField (fieldFilter : option FieldFilter)
  : option FieldFilter :=
  match fieldFilter with
  | None => None
  | Some f =>
      Some (mkFieldFilter (option_map (map defaultEnabled) (conditions f))
                          (operator f))
  end.

(** The configuration after [renderSettings] went over the four fields. *)
Definition renderedConfig (c : FilterConfig) : FilterConfig :=
  mkFilterConfig (renderedField (filter_reference c))
                 (renderedField (filter_comments c))
                 (renderedField (filter_mode c))
                 (renderedField (filter_frequency c))
                 (ignoreOtherSpotters c) (notificationSoundPath c)
                 (maxNotificationCount c) (maxPopupCount c).

(** A stored document that lacks the newer keys. *)
Definition oldDocument : FilterConfig :=
  mkFilterConfig (Some (oneCondition "JP" "contains")) None None None
                 None None None None.

(* ================================================================== *)
(** * Properties of the filter engine *)

Section StringFacts.

Lemma toLowerCase_empty (s : string) :
  JS.toLowerCase s = "" -> s = "".
Proof. destruct s; simpl; [reflexivity | discriminate]. Qed.

Lemma prefix_of_empty (p : string) :
  prefix p "" = true -> p = "".
Proof. destruct p; simpl; [reflexivity | discriminate]. Qed.

Lemma truthy_nonempty (o : option string) :
  JS.truthy o = true <-> exists s, o = Some s /\ s <> "".
Proof.
  destruct o as [s|]; simpl; split.
  - intros H. exists s. split; [reflexivity|].
    intros ->. discriminate.
  - intros (s' & [= <-] & Hne).
    destruct (String.eqb_spec s ""); [contradiction | reflexivity].
  - discriminate.
  - intros (s' & [=] & _).
Qed.

End StringFacts.

(** An absent field value and the [''] that [applyFilter] puts in its place
    are matched alike. *)
Lemma checkConditionMatch_orEmpty (v : option string) (c : FilterCondition) :
  checkConditionMatch (Some (JS.orEmpty v)) (Some c)
  = checkConditionMatch v (Some c).
Proof.
  destruct v as [s|]; [reflexivity|].
  unfold checkConditionMatch.
  destruct (JS.truthy (value c)) eqn:Hv; [cbn [negb] | reflexivity].
  apply truthy_nonempty in Hv. destruct Hv as (p & Hp & Hne).
  unfold caseInsensitiveEquals, caseInsensitiveContains, JS.orEmpty.
  rewrite Hp. change (JS.toLowerCase "") with "".
  assert (He : ("" =? JS.toLowerCase p) = false).
  { destruct (String.eqb_spec "" (JS.toLowerCase p)) as [E|]; [|reflexivity].
    symmetry in E. apply toLowerCase_empty in E. contradiction. }
  assert (Hi : JS.includes "" (JS.toLowerCase p) = false).
  { cbn [JS.includes].
    destruct (prefix (JS.toLowerCase p) "") eqn:E; [|reflexivity].
    apply prefix_of_empty, toLowerCase_empty in E. contradiction. }
  rewrite He, Hi.
  destruct (typeIs c "exact"), (typeIs c "contains"); reflexivity.
Qed.

Lemma isExclude_iff (c : FilterCondition) :
  isExclude c = true <-> exclude c = Some true /\ enabled c <> Some false.
Proof.
  unfold isExclude, notDisabled, JS.truthyb.
  destruct (exclude c) as [[|]|], (enabled c) as [[|]|]; simpl;
    split; try discriminate; try (intros [? ?]; congruence);
    intros _; split; congruence.
Qed.

Lemma In_fields (field : Field) : In field fields.
Proof. destruct field; simpl; auto. Qed.

(** The exclude loop returns as soon as some enabled exclude condition of
    some field matches. *)
Lemma excludeHit_iff (spot : Spot) (cfg : FilterConfig) :
  excludeHit spot cfg = true <->
  exists field c,
    In c (excludeConditions cfg field)
    /\ checkConditionMatch (spotField spot field) (Some c) = true.
Proof.
  unfold excludeHit. rewrite existsb_exists. split.
  - intros (field & _ & H). apply existsb_exists in H.
    destruct H as (c & Hc & Hm). exists field, c.
    rewrite checkConditionMatch_orEmpty in Hm. auto.
  - intros (field & c & Hc & Hm). exists field. split; [apply In_fields|].
    apply existsb_exists. exists c. rewrite checkConditionMatch_orEmpty. auto.
Qed.

(** C1: whenever an enabled condition with [exclude = true] of a tracked
    field matches the record's value of that field, [applyFilter] returns
    [false], whatever the field's operator and whatever the include
    conditions of the configuration are. *)
Theorem applyFilter_exclude_wins
  (spot : Spot) (cfg : FilterConfig) (field : Field)
  (fieldFilter : FieldFilter) (conds : list FilterCondition)
  (c : FilterCondition) :
  configField cfg field = Some fieldFilter ->
  conditions fieldFilter = Some conds ->
  In c conds ->
  exclude c = Some true ->
  enabled c <> Some false ->
  checkConditionMatch (spotField spot field) (Some c) = true ->
  applyFilter spot (Some cfg) = false.
Proof.
  intros Hf Hc Hin Hex Hen Hm. unfold applyFilter.
  destruct (JS.truthyb (ignoreOtherSpotters cfg)
            && negb (callsignsMatch (activator spot) (spotter spot)));
    [reflexivity|].
  assert (Hhit : excludeHit spot cfg = true).
  { apply excludeHit_iff. exists field, c. split; [|exact Hm].
    unfold excludeConditions. rewrite Hf, Hc.
    apply filter_In. split; [exact Hin|].
    apply isExclude_iff. auto. }
  rewrite Hhit. reflexivity.
Qed.

Lemma applyFilter_exclude_wins_witness :
  applyFieldFilter (mode cwSpot) (Some cwModeFilter) = true
  /\ applyFilter cwSpot (Some cwConfig) = false.
Proof.
  split; [reflexivity|].
  apply (applyFilter_exclude_wins cwSpot cwConfig Mode cwModeFilter
           [cwExclude; cwInclude] cwExclude);
    try reflexivity.
  - simpl; auto.
  - discriminate.
Defined.

(** The matcher never looks at [enabled]: a disabled condition still
    matches. *)
Lemma checkConditionMatch_disabled_counterexample :
  enabled ft8ExactDisabled = Some false
  /\ checkConditionMatch (Some "FT8") (Some ft8ExactDisabled) = true.
Proof. split; reflexivity. Qed.

Lemma checkConditionMatch_no_value (fv : option string) (c : FilterCondition) :
  value c = None \/ value c = Some "" ->
  checkConditionMatch fv (Some c) = false.
Proof.
  intros [H|H]; unfold checkConditionMatch; rewrite H; reflexivity.
Qed.

Lemma checkConditionMatch_exact (fv : option string) (c : FilterCondition)
  (pattern : string) :
  type c = Some "exact" -> value c = Some pattern -> pattern <> "" ->
  checkConditionMatch fv (Some c) = caseInsensitiveEquals fv (Some pattern).
Proof.
  intros Ht Hv Hne. unfold checkConditionMatch, typeIs. rewrite Ht, Hv.
  simpl. destruct (String.eqb_spec pattern ""); [contradiction | reflexivity].
Qed.

(** C5 (amended): the matcher returns [false] for every field value when the
    condition's value is absent or empty; it does not inspect the [enabled]
    flag, so its verdict is the same whatever that flag is (the callers
    drop disabled conditions before they match); for type ['exact'] it
    compares the lower-cased field value and pattern for equality, so "FT8"
    matches the exact pattern "ft8"; the empty field value does not contain
    "x"; and an absent field value matches no condition. *)
Theorem checkConditionMatch_contract :
  (forall fv c, value c = None \/ value c = Some "" ->
                checkConditionMatch fv (Some c) = false)
  /\ (forall fv c e,
        checkConditionMatch fv (Some (setEnabled e c))
        = checkConditionMatch fv (Some c))
  /\ (forall fv c pattern,
        type c = Some "exact" -> value c = Some pattern -> pattern <> "" ->
        checkConditionMatch (Some fv) (Some c)
        = (JS.toLowerCase fv =? JS.toLowerCase pattern))
  /\ checkConditionMatch (Some "FT8") (Some ft8Exact) = true
  /\ checkConditionMatch (Some "") (Some xContains) = false
  /\ (forall c, checkConditionMatch None (Some c) = false).
Proof.
  repeat apply conj.
  - apply checkConditionMatch_no_value.
  - reflexivity.
  - intros fv c pattern Ht Hv Hne.
    rewrite (checkConditionMatch_exact _ _ pattern) by assumption. reflexivity.
  - reflexivity.
  - reflexivity.
  - intros c. unfold checkConditionMatch.
    destruct (JS.truthy (value c)); [simpl | reflexivity].
    destruct (typeIs c "exact"), (typeIs c "contains"); reflexivity.
Qed.

(** For callsigns that are present and not empty, [normalizeCallsign] is the
    normalisation the specification describes. *)
Lemma normalizeCallsign_spec (callsign : option string) :
  JS.truthy callsign = true ->
  normalizeCallsign callsign = specNormalize (JS.orEmpty callsign).
Proof.
  intros H. unfold normalizeCallsign, specNormalize. rewrite H. reflexivity.
Qed.

Lemma callsignsMatch_spec (a s : option string) :
  callsignsMatch a s
  = JS.truthy a && JS.truthy s && callsignEquivalent s a.
Proof.
  unfold callsignsMatch, callsignEquivalent.
  destruct (JS.truthy a) eqn:Ha; [|reflexivity].
  destruct (JS.truthy s) eqn:Hs; [|reflexivity].
  cbn [negb orb andb].
  rewrite !normalizeCallsign_spec by assumption.
  apply String.eqb_sym.
Qed.

(** Two empty callsigns are equal under callsign equivalence, yet the
    reporter check rejects the record. *)
Lemma reporter_check_blank_counterexample :
  ignoreOtherSpotters reporterCheckConfig = Some true
  /\ callsignEquivalent (spotter blankCallsignSpot) (activator blankCallsignSpot)
     = true
  /\ applyFilter blankCallsignSpot (Some reporterCheckConfig) = false
  /\ applyFilter blankCallsignSpot (Some (withoutReporterCheck reporterCheckConfig))
     = true.
Proof. repeat apply conj; reflexivity. Qed.

(** C6 (amended): with [ignoreOtherSpotters] on, [applyFilter] rejects the
    record at the reporter check exactly when the spotter or the activator
    callsign is absent or empty, or the two are not equal under callsign
    equivalence; a record that passes the check gets the verdict of the
    exclude and include passes. *)
Theorem applyFilter_reporter_check (spot : Spot) (cfg : FilterConfig) :
  ignoreOtherSpotters cfg = Some true ->
  applyFilter spot (Some cfg)
  = (JS.truthy (activator spot) && JS.truthy (spotter spot)
     && callsignEquivalent (spotter spot) (activator spot))
    && applyFilter spot (Some (withoutReporterCheck cfg)).
Proof.
  intros H. unfold applyFilter. rewrite H. cbn [JS.truthyb andb].
  rewrite <- callsignsMatch_spec.
  destruct (callsignsMatch (activator spot) (spotter spot)); reflexivity.
Qed.

Lemma applyFilter_reporter_check_witness :
  applyFilter selfSpot (Some reporterCheckConfig) = true
  /\ applyFilter cwSpot (Some reporterCheckConfig) = false.
Proof.
  split.
  - rewrite (applyFilter_reporter_check selfSpot reporterCheckConfig);
      reflexivity.
  - rewrite (applyFilter_reporter_check cwSpot reporterCheckConfig);
      reflexivity.
Defined.

Lemma isInclude_false_iff (c : FilterCondition) :
  isInclude c = false <-> enabled c = Some false \/ exclude c = Some true.
Proof.
  unfold isInclude, notDisabled, JS.truthyb.
  destruct (exclude c) as [[|]|], (enabled c) as [[|]|]; simpl;
    split; auto; try discriminate; intros [H|H]; discriminate.
Qed.

Lemma filter_nil_iff {A} (f : A -> bool) (l : list A) :
  filter f l = [] <-> forall x, In x l -> f x = false.
Proof.
  induction l as [|a l IH]; simpl.
  - split; [intros _ x [] | reflexivity].
  - destruct (f a) eqn:Ha; split.
    + discriminate.
    + intros H. specialize (H a (or_introl eq_refl)). congruence.
    + intros H x [<-|Hx]; [exact Ha | apply IH; assumption].
    + intros H. apply IH. intros x Hx. apply H. right. exact Hx.
Qed.

(** C9: [applyFieldFilter] returns [true], whatever the field value, when
    the field filter is absent, when it has no condition list, and when none
    of its conditions is an enabled include condition - each one is switched
    off ([enabled = false]) or is an exclude condition; zero conditions is
    the case of the empty list. *)
Theorem applyFieldFilter_open_by_default
  (fieldValue : option string) (fieldFilter : option FieldFilter) :
  fieldFilter = None
  \/ (exists f, fieldFilter = Some f /\ conditions f = None)
  \/ (exists f conds,
        fieldFilter = Some f /\ conditions f = Some conds
        /\ forall c, In c conds ->
                     enabled c = Some false \/ exclude c = Some true) ->
  applyFieldFilter fieldValue fieldFilter = true.
Proof.
  intros [-> | [(f & -> & Hc) | (f & conds & -> & Hc & Hall)]].
  - reflexivity.
  - unfold applyFieldFilter. rewrite Hc. reflexivity.
  - unfold applyFieldFilter. rewrite Hc.
    assert (Hnil : filter isInclude conds = []).
    { apply filter_nil_iff. intros c Hin.
      apply isInclude_false_iff. auto. }
    rewrite Hnil. destruct conds; reflexivity.
Qed.

Lemma applyFieldFilter_open_by_default_witness :
  applyFieldFilter (Some "SSB") (Some allDisabledFilter) = true
  /\ applyFieldFilter (Some "SSB") (Some emptyFieldFilter) = true
  /\ applyFieldFilter (Some "SSB") None = true.
Proof.
  repeat apply conj.
  - apply applyFieldFilter_open_by_default. right; right.
    exists allDisabledFilter. eexists. repeat split.
    intros c [<-|[<-|[]]]; left; reflexivity.
  - apply applyFieldFilter_open_by_default. right; right.
    exists emptyFieldFilter, []. repeat split. intros c [].
  - apply applyFieldFilter_open_by_default. left. reflexivity.
Defined.

Lemma unknown_type_no_match (fv : option string) (c : FilterCondition) :
  type c <> Some "exact" -> type c <> Some "contains" ->
  checkConditionMatch fv (Some c) = false.
Proof.
  intros He Hc. unfold checkConditionMatch, typeIs.
  destruct (negb (JS.truthy (value c))); [reflexivity|].
  destruct (type c) as [t|]; [|reflexivity].
  destruct (String.eqb_spec t "exact") as [->|_]; [congruence|].
  destruct (String.eqb_spec t "contains") as [->|_]; [congruence|].
  reflexivity.
Qed.

(** [fieldFilter.operator || 'or'] is ['and'] only when the operator is. *)
Lemma operator_and (o : option string) :
  ((if JS.truthy o then JS.orEmpty o else "or") =? "and") = true ->
  o = Some "and".
Proof.
  destruct o as [s|]; simpl; [|discriminate].
  destruct (String.eqb_spec s ""); simpl; [discriminate|].
  intros H. apply String.eqb_eq in H. congruence.
Qed.

(** When a field passes although [c], which matches nothing, is one of its
    enabled include conditions, the operator is not ['and'] and another
    include condition matched. *)
Lemma include_pass_needs_other (fv : option string) (f : FieldFilter)
  (conds : list FilterCondition) (c : FilterCondition) :
  (forall v, checkConditionMatch v (Some c) = false) ->
  conditions f = Some conds -> In c conds -> isInclude c = true ->
  applyFieldFilter fv (Some f) = true ->
  operator f <> Some "and"
  /\ exists c', In c' conds /\ isInclude c' = true /\ c' <> c
                /\ checkConditionMatch fv (Some c') = true.
Proof.
  intros Hno Hc Hin Hinc. unfold applyFieldFilter. rewrite Hc.
  assert (Hf : In c (filter isInclude conds)) by (apply filter_In; auto).
  destruct conds as [|c0 conds0]; [destruct Hin|].
  remember (c0 :: conds0) as conds eqn:Econds. clear Econds.
  destruct (filter isInclude conds) as [|i0 incl] eqn:Ef; [destruct Hf|].
  rewrite <- Ef in *. clear Ef i0 incl.
  destruct ((if JS.truthy (operator f) then JS.orEmpty (operator f) else "or")
            =? "and") eqn:Eop.
  - intros Hall. rewrite forallb_forall in Hall.
    specialize (Hall c Hf). rewrite Hno in Hall. discriminate.
  - intros Hex. split.
    + intros Hand. rewrite Hand in Eop. discriminate.
    + apply existsb_exists in Hex. destruct Hex as (c' & Hc' & Hm).
      apply filter_In in Hc'. destruct Hc' as [Hc'in Hc'inc].
      exists c'. repeat split; auto.
      intros ->. rewrite Hno in Hm. discriminate.
Qed.

(** C10: a condition whose type is neither ['exact'] nor ['contains']
    matches no field value.  Hence a field that passes while such a
    condition is among its enabled include conditions owes it to another
    include condition under an operator other than ['and'], and a record
    the exclude loop rejects is rejected by another condition. *)
Theorem unknown_type_is_inert (c : FilterCondition) :
  type c <> Some "exact" -> type c <> Some "contains" ->
  (forall fv, checkConditionMatch fv (Some c) = false)
  /\ (forall fv f conds,
        conditions f = Some conds -> In c conds -> isInclude c = true ->
        applyFieldFilter fv (Some f) = true ->
        operator f <> Some "and"
        /\ exists c', In c' conds /\ isInclude c' = true /\ c' <> c
                      /\ checkConditionMatch fv (Some c') = true)
  /\ (forall spot cfg,
        excludeHit spot cfg = true ->
        exists field c',
          In c' (excludeConditions cfg field) /\ c' <> c
          /\ checkConditionMatch (spotField spot field) (Some c') = true).
Proof.
  intros He Hc.
  assert (Hno : forall fv, checkConditionMatch fv (Some c) = false)
    by (intros fv; apply unknown_type_no_match; assumption).
  repeat apply conj.
  - exact Hno.
  - intros fv f conds. apply include_pass_needs_other. exact Hno.
  - intros spot cfg Hhit. apply excludeHit_iff in Hhit.
    destruct Hhit as (field & c' & Hin & Hm).
    exists field, c'. repeat split; auto.
    intros ->. rewrite Hno in Hm. discriminate.
Qed.

Lemma unknown_type_is_inert_witness :
  checkConditionMatch (Some "CW") (Some regexCondition) = false.
Proof.
  destruct (unknown_type_is_inert regexCondition) as (H & _);
    [discriminate | discriminate | apply H].
Defined.

(* ================================================================== *)
(** * Properties of the dispatch *)

Section TraceFacts.

Lemma alertsOf_app (l1 l2 : list Event) :
  alertsOf (l1 ++ l2) = alertsOf l1 ++ alertsOf l2.
Proof. apply flat_map_app. Qed.

Lemma popupsOf_app (l1 l2 : list Event) :
  popupsOf (l1 ++ l2) = popupsOf l1 ++ popupsOf l2.
Proof. apply flat_map_app. Qed.

Lemma marksOf_app (l1 l2 : list Event) :
  marksOf (l1 ++ l2) = marksOf l1 ++ marksOf l2.
Proof. apply flat_map_app. Qed.

Lemma soundsOf_app (l1 l2 : list Event) :
  soundsOf (l1 ++ l2) = soundsOf l1 ++ soundsOf l2.
Proof. apply flat_map_app. Qed.

End TraceFacts.

(** A projection of a trace that sees none of the steps of [l]. *)
Lemma flat_map_nil_on {A B} (f : A -> list B) (l : list A) :
  (forall x, In x l -> f x = []) -> flat_map f l = [].
Proof.
  induction l as [|a l IH]; simpl; intros H; [reflexivity|].
  rewrite (H a) by auto. apply IH. auto.
Qed.

(** The speech queue only synthesizes, plays speech and logs. *)
Lemma speakLoop_steps (w : World) (queue : list Spot) :
  forall k e, In e (fst (speakLoop w k queue)) ->
    (exists s, e = Synthesize s /\ In s queue)
    \/ (exists a, e = PlaySpeech a) \/ (exists m, e = LogError m).
Proof.
  induction queue as [|spot rest IH]; intros k e; simpl; [intros []|].
  destruct (synthesizeVoicevox w k) as [audio|err].
  - destruct (negb (audio =? "")).
    + destruct (playback w k) as [reason|].
      * simpl. intros [<-|[<-|[]]]; eauto.
      * specialize (IH (S k) e).
        destruct (speakLoop w (S k) rest) as [steps thrown]. simpl in *.
        intros [<-|[<-|H]]; eauto.
        destruct (IH H) as [(s & -> & Hs)|H']; eauto.
    + specialize (IH (S k) e).
      destruct (speakLoop w (S k) rest) as [steps thrown]. simpl in *.
      intros [<-|H]; eauto.
      destruct (IH H) as [(s & -> & Hs)|H']; eauto.
  - specialize (IH (S k) e).
    destruct (speakLoop w (S k) rest) as [steps thrown]. simpl in *.
    intros [<-|[<-|H]]; eauto.
    destruct (IH H) as [(s & -> & Hs)|H']; eauto.
Qed.

Lemma sliceHead_incl {A} (n : Z) (l : list A) (x : A) :
  In x (JS.sliceHead n l) -> In x l.
Proof.
  unfold JS.sliceHead. intros H.
  rewrite <- (firstn_skipn (Z.to_nat n) l). apply in_or_app. left. exact H.
Qed.

Lemma spotsToRead_incl (s : VoicevoxSettings) (spots : list Spot) (x : Spot) :
  In x (spotsToRead s spots) -> In x spots.
Proof.
  unfold spotsToRead. destruct (0 <? orZero (maxSpotsPerRead s))%Z; auto.
  apply sliceHead_incl.
Qed.

Lemma speak_steps (w : World) (spots : list Spot) (on : bool) (e : Event) :
  In e (speakMultipleSpotsWithVoicevox w spots on) ->
  (exists s, e = Synthesize s /\ In s spots)
  \/ (exists a, e = PlaySpeech a) \/ (exists m, e = LogError m).
Proof.
  unfold speakMultipleSpotsWithVoicevox.
  destruct (negb on || (length spots =? 0)%nat); [intros []|].
  destruct (negb (speakerSet (voicevoxSettings w))); [intros []|].
  pose proof (speakLoop_steps w (spotsToRead (voicevoxSettings w) spots) 0 e) as H.
  destruct (speakLoop w 0 (spotsToRead (voicevoxSettings w) spots))
    as [steps [err|]]; simpl in *.
  - intros Hin. apply in_app_or in Hin. destruct Hin as [Hin|[<-|[]]]; eauto.
    destruct (H Hin) as [(s & -> & Hs)|H']; eauto using spotsToRead_incl.
  - intros Hin.
    destruct (H Hin) as [(s & -> & Hs)|H']; eauto using spotsToRead_incl.
Qed.

Lemma speechSteps_steps st w fs e :
  In e (speechSteps st w fs) ->
  (exists s, e = Synthesize s /\ In s fs)
  \/ (exists a, e = PlaySpeech a) \/ (exists m, e = LogError m).
Proof.
  unfold speechSteps. destruct (audioTarget w); [apply speak_steps | intros []].
Qed.

Lemma alertsOf_showNotification st w (l : list Spot) :
  alertsOf (flat_map (showNotification st w) l)
  = if notificationEnabled (notificationSettings st) && notificationSupported w
    then l else [].
Proof.
  unfold showNotification.
  destruct (notificationEnabled (notificationSettings st)),
           (notificationSupported w); simpl;
    induction l as [|a l IH]; simpl; congruence.
Qed.

Lemma popupsOf_showPopup st (l : list Spot) :
  popupsOf (flat_map (showPopupNotification st) l)
  = if popupEnabled (notificationSettings st) then l else [].
Proof.
  unfold showPopupNotification.
  destruct (popupEnabled (notificationSettings st)); simpl;
    induction l as [|a l IH]; simpl; congruence.
Qed.

Lemma filter_all {A} (f : A -> bool) (l : list A) :
  (forall x, In x l -> f x = true) -> filter f l = l.
Proof.
  induction l as [|a l IH]; simpl; intros H; [reflexivity|].
  rewrite (H a) by auto. f_equal. apply IH. auto.
Qed.

Lemma filter_none {A} (f : A -> bool) (l : list A) :
  (forall x, In x l -> f x = false) -> filter f l = [].
Proof. apply filter_nil_iff. Qed.

(** The novelty loop only marks identities and evaluates the filter. *)
Lemma collect_steps_kind cfg (spots : list Spot) :
  forall known e,
    In e (snd (collectNewSpots cfg spots known)) ->
    (exists id, e = MarkSeen id) \/ (exists s, e = FilterEval s).
Proof.
  induction spots as [|spot rest IH]; intros known e; simpl; [intros []|].
  destruct (negb (setHas known (spotId spot))); [|apply IH].
  specialize (IH (setAdd known (spotId spot)) e).
  destruct (collectNewSpots cfg rest (setAdd known (spotId spot)))
    as [[known' fs] steps].
  destruct cfg; simpl in *.
  - intros [<-|[<-|H]]; eauto.
  - intros [<-|H]; eauto.
Qed.

Lemma processSpots_trace (st : AppState) (w : World) (spots : list Spot) :
  snd (processSpots st w spots)
  = loopSteps st spots
    ++ (if (0 <? length (newFilteredSpots st spots))%nat
        then dispatch st w (newFilteredSpots st spots) else []).
Proof.
  unfold processSpots, loopSteps, newFilteredSpots.
  destruct (collectNewSpots (filterConfig st) spots (knownSpotIds st))
    as [[known fs] steps]. reflexivity.
Qed.

Lemma processSpots_index (st : AppState) (w : World) (spots : list Spot) :
  knownSpotIds (fst (processSpots st w spots)) = evict (loopIndex st spots).
Proof.
  unfold processSpots, loopIndex.
  destruct (collectNewSpots (filterConfig st) spots (knownSpotIds st))
    as [[known fs] steps]. reflexivity.
Qed.

Lemma nonempty_length {A} (l : list A) :
  l <> [] -> (0 <? length l)%nat = true.
Proof. destruct l; [congruence | reflexivity]. Qed.

(** What each part of [dispatch] is made of. *)
Lemma dispatch_steps st w fs e :
  In e (dispatch st w fs) ->
  (exists p, e = PlayNotificationSound p
             /\ handleNotificationSound st = [PlayNotificationSound p])
  \/ (exists s, e = DesktopNotification s /\ In s fs)
  \/ (exists s, e = PopupWindow s /\ In s fs)
  \/ (exists s, e = Synthesize s /\ In s fs)
  \/ (exists a, e = PlaySpeech a) \/ (exists m, e = LogError m).
Proof.
  unfold dispatch. intros H.
  apply in_app_or in H. destruct H as [H|H].
  { left. unfold handleNotificationSound in *.
    destruct (negb (soundEnabled (notificationSettings st))); [destruct H|].
    destruct (negb (JS.truthy (soundPath (filterConfig st)))); [destruct H|].
    destruct H as [<-|[]]. eauto. }
  apply in_app_or in H. destruct H as [H|H].
  { right; left. apply in_flat_map in H. destruct H as (s & Hs & He).
    assert (In s fs).
    { unfold notificationSpots in Hs.
      destruct (0 <? _)%Z in Hs; eauto using sliceHead_incl. }
    unfold showNotification in He.
    destruct (negb (notificationEnabled (notificationSettings st)));
      [destruct He|].
    destruct (notificationSupported w); [|destruct He].
    destruct He as [<-|[]]. eauto. }
  apply in_app_or in H. destruct H as [H|H].
  { right; right; left. apply in_flat_map in H. destruct H as (s & Hs & He).
    assert (In s fs).
    { unfold popupSpots in Hs.
      destruct (0 <? _)%Z in Hs; eauto using sliceHead_incl. }
    unfold showPopupNotification in He.
    destruct (negb (popupEnabled (notificationSettings st))); [destruct He|].
    destruct He as [<-|[]]. eauto. }
  right; right; right. exact (speechSteps_steps st w fs e H).
Qed.

Lemma speechSteps_quiet st w fs :
  alertsOf (speechSteps st w fs) = []
  /\ popupsOf (speechSteps st w fs) = []
  /\ soundsOf (speechSteps st w fs) = []
  /\ marksOf (speechSteps st w fs) = [].
Proof.
  repeat apply conj; apply flat_map_nil_on; intros e He;
    apply speechSteps_steps in He;
    destruct He as [(s & -> & _)|[(a & ->)|(m & ->)]]; reflexivity.
Qed.

Lemma loopSteps_quiet st spots :
  alertsOf (loopSteps st spots) = []
  /\ popupsOf (loopSteps st spots) = []
  /\ soundsOf (loopSteps st spots) = []
  /\ filter isChannelStep (loopSteps st spots) = [].
Proof.
  unfold loopSteps.
  repeat apply conj;
    (apply flat_map_nil_on || apply filter_none); intros e He;
    apply collect_steps_kind in He;
    destruct He as [(id & ->)|(s & ->)]; reflexivity.
Qed.

Lemma dispatch_channel_steps st w fs :
  filter isChannelStep (dispatch st w fs) = dispatch st w fs.
Proof.
  apply filter_all. intros e He. apply dispatch_steps in He.
  destruct He as [(p & -> & _)|[(s & -> & _)|[(s & -> & _)|[(s & -> & _)|
                 [(a & ->)|(m & ->)]]]]]; reflexivity.
Qed.

Lemma notificationSpots_cap (cfg : FilterConfig) (fs : list Spot) :
  (0 <= orZero (maxNotificationCount cfg))%Z ->
  notificationSpots (Some cfg) fs
  = headOrAll (orZero (maxNotificationCount cfg)) fs.
Proof.
  intros H. unfold notificationSpots, headOrAll, JS.sliceHead.
  destruct (Z.ltb_spec 0 (orZero (maxNotificationCount cfg)));
    destruct (Z.eqb_spec (orZero (maxNotificationCount cfg)) 0);
    try reflexivity; lia.
Qed.

Lemma popupSpots_cap (cfg : FilterConfig) (fs : list Spot) :
  (0 <= orZero (maxPopupCount cfg))%Z ->
  popupSpots (Some cfg) fs = headOrAll (orZero (maxPopupCount cfg)) fs.
Proof.
  intros H. unfold popupSpots, headOrAll, JS.sliceHead.
  destruct (Z.ltb_spec 0 (orZero (maxPopupCount cfg)));
    destruct (Z.eqb_spec (orZero (maxPopupCount cfg)) 0);
    try reflexivity; lia.
Qed.

Lemma handleNotificationSound_quiet st :
  alertsOf (handleNotificationSound st) = []
  /\ popupsOf (handleNotificationSound st) = [].
Proof.
  unfold handleNotificationSound.
  destruct (negb (soundEnabled (notificationSettings st))); [split; reflexivity|].
  destruct (negb (JS.truthy (soundPath (filterConfig st)))); split; reflexivity.
Qed.

Lemma showNotification_quiet st w l :
  popupsOf (flat_map (showNotification st w) l) = []
  /\ soundsOf (flat_map (showNotification st w) l) = [].
Proof.
  split; apply flat_map_nil_on; intros e He; apply in_flat_map in He;
    destruct He as (s & _ & He); unfold showNotification in He;
    destruct (negb (notificationEnabled (notificationSettings st)));
    try (destruct He; fail);
    destruct (notificationSupported w); try (destruct He; fail);
    destruct He as [<-|[]]; reflexivity.
Qed.

Lemma showPopup_quiet st l :
  alertsOf (flat_map (showPopupNotification st) l) = []
  /\ soundsOf (flat_map (showPopupNotification st) l) = [].
Proof.
  split; apply flat_map_nil_on; intros e He; apply in_flat_map in He;
    destruct He as (s & _ & He); unfold showPopupNotification in He;
    destruct (negb (popupEnabled (notificationSettings st)));
    try (destruct He; fail);
    destruct He as [<-|[]]; reflexivity.
Qed.

(** C4: for a batch with a non-empty filtered list and caps that are not
    negative, the channel steps of [processSpots] hand to the alert channel
    exactly the first [maxNotificationCount] entries of [filteredSpots] (all
    of them when the cap is 0) and, independently, to the popup channel
    exactly the first [maxPopupCount] entries of the same list (all when 0),
    in order; an enabled channel emits one alert, respectively one popup,
    for each entry it is handed. *)
Theorem caps_slice_the_same_list
  (st : AppState) (w : World) (cfg : FilterConfig) (spots : list Spot) :
  newFilteredSpots st spots <> [] ->
  filterConfig st = Some cfg ->
  (0 <= orZero (maxNotificationCount cfg))%Z ->
  (0 <= orZero (maxPopupCount cfg))%Z ->
  let filteredSpots := newFilteredSpots st spots in
  let alerts := headOrAll (orZero (maxNotificationCount cfg)) filteredSpots in
  let popups := headOrAll (orZero (maxPopupCount cfg)) filteredSpots in
  let trace := snd (processSpots st w spots) in
  filter isChannelStep trace
  = handleNotificationSound st
    ++ flat_map (showNotification st w) alerts
    ++ flat_map (showPopupNotification st) popups
    ++ speechSteps st w filteredSpots
  /\ alertsOf trace
     = (if notificationEnabled (notificationSettings st)
           && notificationSupported w
        then alerts else [])
  /\ popupsOf trace
     = (if popupEnabled (notificationSettings st) then popups else []).
Proof.
  intros Hne Hcfg Hn Hm. cbv zeta.
  rewrite processSpots_trace, (nonempty_length _ Hne).
  set (filteredSpots := newFilteredSpots st spots).
  set (alerts := headOrAll (orZero (maxNotificationCount cfg)) filteredSpots).
  set (popups := headOrAll (orZero (maxPopupCount cfg)) filteredSpots).
  destruct (loopSteps_quiet st spots) as (La & Lp & _ & Lc).
  assert (Hd : dispatch st w filteredSpots
               = handleNotificationSound st
                 ++ flat_map (showNotification st w) alerts
                 ++ flat_map (showPopupNotification st) popups
                 ++ speechSteps st w filteredSpots).
  { unfold dispatch. rewrite Hcfg.
    rewrite notificationSpots_cap, popupSpots_cap by assumption.
    reflexivity. }
  repeat apply conj.
  - rewrite filter_app, Lc, dispatch_channel_steps. exact Hd.
  - rewrite alertsOf_app, La, Hd, !alertsOf_app.
    destruct (handleNotificationSound_quiet st) as [-> _].
    destruct (showPopup_quiet st popups) as [-> _].
    destruct (speechSteps_quiet st w filteredSpots) as (-> & _).
    rewrite alertsOf_showNotification. simpl. apply app_nil_r.
  - rewrite popupsOf_app, Lp, Hd, !popupsOf_app.
    destruct (handleNotificationSound_quiet st) as [_ ->].
    destruct (showNotification_quiet st w alerts) as [-> _].
    destruct (speechSteps_quiet st w filteredSpots) as (_ & -> & _).
    rewrite popupsOf_showPopup. simpl. apply app_nil_r.
Qed.

Lemma caps_slice_the_same_list_witness :
  length (newFilteredSpots cappedState fiveSpots) = 5%nat
  /\ alertsOf (snd (processSpots cappedState calmWorld fiveSpots))
     = [bareSpot 11]
  /\ popupsOf (snd (processSpots cappedState calmWorld fiveSpots))
     = [bareSpot 11; bareSpot 12; bareSpot 13].
Proof.
  split; [reflexivity|].
  destruct (caps_slice_the_same_list cappedState calmWorld cappedConfig fiveSpots)
    as (_ & Ha & Hp).
  - discriminate.
  - reflexivity.
  - simpl. lia.
  - simpl. lia.
  - split; [rewrite Ha | rewrite Hp]; reflexivity.
Defined.

Lemma handleNotificationSound_on (st : AppState) (path : string) :
  soundEnabled (notificationSettings st) = true ->
  soundPath (filterConfig st) = Some path -> path <> "" ->
  handleNotificationSound st = [PlayNotificationSound path].
Proof.
  intros Hs Hp Hne. unfold handleNotificationSound. rewrite Hs, Hp. simpl.
  destruct (String.eqb_spec path ""); [contradiction | reflexivity].
Qed.

(** C8: when the filtered list of a batch is empty, [processSpots] takes no
    channel step at all; when it is not empty, the sound channel is enabled
    and a sound file is configured, the file is handed to playback exactly
    once in the batch, and that is the first channel step - the alert, popup
    and speech steps all come after it. *)
Theorem sound_once_per_batch
  (st : AppState) (w : World) (spots : list Spot) :
  let trace := snd (processSpots st w spots) in
  (newFilteredSpots st spots = [] -> filter isChannelStep trace = [])
  /\ (newFilteredSpots st spots <> [] ->
      soundEnabled (notificationSettings st) = true ->
      forall path,
        soundPath (filterConfig st) = Some path -> path <> "" ->
        soundsOf trace = [path]
        /\ exists rest,
             filter isChannelStep trace = PlayNotificationSound path :: rest
             /\ soundsOf rest = []).
Proof.
  cbv zeta. rewrite processSpots_trace.
  destruct (loopSteps_quiet st spots) as (_ & _ & Ls & Lc).
  split.
  - intros ->. simpl. rewrite app_nil_r. exact Lc.
  - intros Hne Hon path Hp Hpath.
    rewrite (nonempty_length _ Hne).
    set (fs := newFilteredSpots st spots).
    assert (Hrest : soundsOf
                      (flat_map (showNotification st w)
                         (notificationSpots (filterConfig st) fs)
                       ++ flat_map (showPopupNotification st)
                            (popupSpots (filterConfig st) fs)
                       ++ speechSteps st w fs) = []).
    { rewrite !soundsOf_app.
      destruct (showNotification_quiet st w
                  (notificationSpots (filterConfig st) fs)) as [_ ->].
      destruct (showPopup_quiet st (popupSpots (filterConfig st) fs))
        as [_ ->].
      destruct (speechSteps_quiet st w fs) as (_ & _ & -> & _).
      reflexivity. }
    split.
    + rewrite soundsOf_app, Ls. unfold dispatch.
      rewrite (handleNotificationSound_on st path) by assumption.
      rewrite soundsOf_app, Hrest. reflexivity.
    + rewrite filter_app, Lc, dispatch_channel_steps. unfold dispatch.
      rewrite (handleNotificationSound_on st path) by assumption.
      eexists. split; [reflexivity | exact Hrest].
Qed.

Lemma sound_once_per_batch_witness :
  soundsOf (snd (processSpots cappedState calmWorld fiveSpots))
  = ["C:/sounds/alert.wav"]
  /\ filter isChannelStep (snd (processSpots cappedState calmWorld []))
     = [].
Proof.
  destruct (sound_once_per_batch cappedState calmWorld fiveSpots) as [_ H].
  destruct (sound_once_per_batch cappedState calmWorld []) as [H0 _].
  split.
  - apply H; [discriminate | reflexivity | reflexivity | discriminate].
  - apply H0. reflexivity.
Defined.

(** A request that is rejected, be it the audio query or the synthesis,
    makes [synthesizeVoicevox] resolve with [{success: false}]. *)
Lemma synthesizeVoicevox_fails (w : World) (k : nat) (message : string) :
  audioQuery w k = HttpError message
  \/ ((exists body, audioQuery w k = HttpOk body)
      /\ synthesis w k = HttpError message) ->
  synthesizeVoicevox w k = SynthFail (errorMessage message).
Proof.
  unfold synthesizeVoicevox. intros [H | [(body & Hq) Hs]].
  - rewrite H. reflexivity.
  - rewrite Hq, Hs. reflexivity.
Qed.

(** One step of the queue on an item whose synthesis failed. *)
Lemma speakLoop_failed_head (w : World) (k : nat) (spot : Spot)
  (rest : list Spot) (error : string) :
  synthesizeVoicevox w k = SynthFail error ->
  speakLoop w k (spot :: rest)
  = (Synthesize spot :: LogError error :: fst (speakLoop w (S k) rest),
     snd (speakLoop w (S k) rest)).
Proof.
  intros H. simpl. rewrite H.
  destruct (speakLoop w (S k) rest). reflexivity.
Qed.

(** The queue run on [pre ++ rest] is the run on [pre] followed by the run
    on [rest], as long as no playback of [pre] rejected. *)
Lemma speakLoop_app (w : World) (pre rest : list Spot) :
  forall k,
    snd (speakLoop w k pre) = None ->
    speakLoop w k (pre ++ rest)
    = (fst (speakLoop w k pre) ++ fst (speakLoop w (k + length pre) rest),
       snd (speakLoop w (k + length pre) rest)).
Proof.
  induction pre as [|p pre IH]; intros k; simpl.
  - intros _. rewrite Nat.add_0_r.
    destruct (speakLoop w k rest). reflexivity.
  - rewrite Nat.add_succ_r. specialize (IH (S k)). simpl in IH.
    destruct (synthesizeVoicevox w k) as [audio|err].
    + destruct (negb (audio =? "")).
      * destruct (playback w k) as [reason|]; [discriminate|].
        destruct (speakLoop w (S k) pre) as [steps thrown]. simpl in *.
        intros H. rewrite (IH H). reflexivity.
      * destruct (speakLoop w (S k) pre) as [steps thrown]. simpl in *.
        intros H. rewrite (IH H). reflexivity.
    + destruct (speakLoop w (S k) pre) as [steps thrown]. simpl in *.
      intros H. rewrite (IH H). reflexivity.
Qed.

Lemma otherChannelSteps_dispatch st w fs :
  filter isOtherChannelStep (dispatch st w fs)
  = handleNotificationSound st
    ++ flat_map (showNotification st w) (notificationSpots (filterConfig st) fs)
    ++ flat_map (showPopupNotification st) (popupSpots (filterConfig st) fs).
Proof.
  unfold dispatch. rewrite !filter_app.
  rewrite (filter_none _ (speechSteps st w fs)), app_nil_r.
  - f_equal; [|f_equal]; apply filter_all; intros e He.
    + unfold handleNotificationSound in He.
      destruct (negb (soundEnabled (notificationSettings st))); [destruct He|].
      destruct (negb (JS.truthy (soundPath (filterConfig st)))); [destruct He|].
      destruct He as [<-|[]]. reflexivity.
    + apply in_flat_map in He. destruct He as (s & _ & He).
      unfold showNotification in He.
      destruct (negb (notificationEnabled (notificationSettings st)));
        [destruct He|].
      destruct (notificationSupported w); [|destruct He].
      destruct He as [<-|[]]. reflexivity.
    + apply in_flat_map in He. destruct He as (s & _ & He).
      unfold showPopupNotification in He.
      destruct (negb (popupEnabled (notificationSettings st))); [destruct He|].
      destruct He as [<-|[]]. reflexivity.
  - intros e He. apply speechSteps_steps in He.
    destruct He as [(s & -> & _)|[(a & ->)|(m & ->)]]; reflexivity.
Qed.

(** C7: when the synthesis of one item of the speech queue fails - its audio
    query or its synthesis request is rejected, by an error of the engine or
    by a time-out - and the queue reached the item, the item is synthesized,
    the failure is logged, nothing is played for it, and the queue goes on
    with the items after it exactly as it runs on them from the next
    position; the steps of the sound, alert and popup channels are the same
    whatever the speech engine answers. *)
Theorem synthesis_failure_skips_item
  (w : World) (k : nat) (pre post : list Spot) (spot : Spot)
  (message : string) :
  audioQuery w (k + length pre) = HttpError message
  \/ ((exists body, audioQuery w (k + length pre) = HttpOk body)
      /\ synthesis w (k + length pre) = HttpError message) ->
  snd (speakLoop w k pre) = None ->
  speakLoop w k (pre ++ spot :: post)
  = (fst (speakLoop w k pre)
     ++ Synthesize spot :: LogError (errorMessage message)
     :: fst (speakLoop w (S (k + length pre)) post),
     snd (speakLoop w (S (k + length pre)) post))
  /\ forall st fs w',
       notificationSupported w' = notificationSupported w ->
       filter isOtherChannelStep (dispatch st w' fs)
       = filter isOtherChannelStep (dispatch st w fs).
Proof.
  intros Hfail Hpre. split.
  - rewrite (speakLoop_app w pre (spot :: post) k Hpre).
    rewrite (speakLoop_failed_head w (k + length pre) spot post
               (errorMessage message))
      by (apply synthesizeVoicevox_fails; exact Hfail).
    reflexivity.
  - intros st fs w' Hsup. rewrite !otherChannelSteps_dispatch.
    unfold showNotification. rewrite Hsup. reflexivity.
Qed.

Lemma synthesis_failure_skips_item_witness :
  speakLoop timeoutWorld 0 (map bareSpot [21; 22; 23]%Z)
  = ([Synthesize (bareSpot 21); PlaySpeech "RIFF";
      Synthesize (bareSpot 22); LogError "Request timeout";
      Synthesize (bareSpot 23); PlaySpeech "RIFF"], None)
  /\ speakLoop refusingWorld 0 (map bareSpot [21; 22; 23]%Z)
     = ([Synthesize (bareSpot 21); PlaySpeech "RIFF";
         Synthesize (bareSpot 22); LogError "HTTP 500: ";
         Synthesize (bareSpot 23); PlaySpeech "RIFF"], None).
Proof.
  split.
  - apply (synthesis_failure_skips_item timeoutWorld 0 [bareSpot 21]
             [bareSpot 23] (bareSpot 22) "Request timeout").
    + left. reflexivity.
    + reflexivity.
  - apply (synthesis_failure_skips_item refusingWorld 0 [bareSpot 21]
             [bareSpot 23] (bareSpot 22) "HTTP 500: ").
    + right. split; [exists "{}" |]; reflexivity.
    + reflexivity.
Defined.

(* ================================================================== *)
(** * Properties of the novelty index *)

Lemma setHas_In (known : list Z) (id : Z) :
  setHas known id = true <-> In id known.
Proof.
  unfold setHas. rewrite existsb_exists. split.
  - intros (x & Hx & He). apply Z.eqb_eq in He. subst. exact Hx.
  - intros H. exists id. split; [exact H | apply Z.eqb_refl].
Qed.

Lemma setHas_false (known : list Z) (id : Z) :
  setHas known id = false <-> ~ In id known.
Proof.
  rewrite <- setHas_In. destruct (setHas known id); split; congruence.
Qed.

Lemma setAdd_new (known : list Z) (id : Z) :
  ~ In id known -> setAdd known id = known ++ [id].
Proof.
  intros H. unfold setAdd. apply setHas_false in H. rewrite H. reflexivity.
Qed.

(** One turn of the novelty loop on a record whose identity is in the
    index: the record is passed over. *)
Lemma collect_known cfg (spot : Spot) (rest : list Spot) (known : list Z) :
  In (spotId spot) known ->
  collectNewSpots cfg (spot :: rest) known = collectNewSpots cfg rest known.
Proof.
  intros H. apply setHas_In in H. simpl. rewrite H. reflexivity.
Qed.

(** One turn on a record whose identity is not in the index. *)
Lemma collect_new cfg (spot : Spot) (rest : list Spot) (known : list Z) :
  ~ In (spotId spot) known ->
  let r := collectNewSpots cfg rest (known ++ [spotId spot]) in
  collectNewSpots cfg (spot :: rest) known
  = (fst (fst r),
     match cfg with
     | None => snd (fst r)
     | Some _ => if applyFilter spot cfg then spot :: snd (fst r)
                 else snd (fst r)
     end,
     MarkSeen (spotId spot)
     :: match cfg with
        | None => snd r
        | Some _ => FilterEval spot :: snd r
        end).
Proof.
  intros H. cbv zeta. simpl. rewrite (setAdd_new _ _ H).
  apply setHas_false in H. rewrite H. simpl.
  destruct (collectNewSpots cfg rest (known ++ [spotId spot])) as [[k fs] steps].
  destruct cfg; reflexivity.
Qed.

Lemma marksOf_collect_new cfg spot rest known :
  ~ In (spotId spot) known ->
  marksOf (snd (collectNewSpots cfg (spot :: rest) known))
  = spotId spot
    :: marksOf (snd (collectNewSpots cfg rest (known ++ [spotId spot]))).
Proof.
  intros H. rewrite (collect_new cfg spot rest known H).
  destruct cfg; reflexivity.
Qed.

(** The index after the loop is the old index followed by the identities
    the loop marked, in the order it marked them. *)
Lemma collect_index cfg (spots : list Spot) :
  forall known,
    fst (fst (collectNewSpots cfg spots known))
    = known ++ marksOf (snd (collectNewSpots cfg spots known)).
Proof.
  induction spots as [|spot rest IH]; intros known.
  - simpl. symmetry. apply app_nil_r.
  - destruct (in_dec Z.eq_dec (spotId spot) known) as [Hin|Hnew].
    + rewrite (collect_known cfg spot rest known Hin). apply IH.
    + rewrite (marksOf_collect_new cfg spot rest known Hnew).
      rewrite (collect_new cfg spot rest known Hnew). cbn [fst].
      rewrite IH, <- app_assoc. reflexivity.
Qed.

(** The identities the loop marks are pairwise different, none of them was
    in the index, and they are the identities of the batch that were not. *)
Lemma collect_marks cfg (spots : list Spot) :
  forall known,
    NoDup (marksOf (snd (collectNewSpots cfg spots known)))
    /\ forall id,
         In id (marksOf (snd (collectNewSpots cfg spots known)))
         <-> ~ In id known /\ In id (map spotId spots).
Proof.
  induction spots as [|spot rest IH]; intros known.
  - simpl. split; [constructor|]. intros id. split; [intros [] | intros [_ []]].
  - destruct (in_dec Z.eq_dec (spotId spot) known) as [Hin|Hnew].
    + rewrite (collect_known cfg spot rest known Hin).
      destruct (IH known) as [Hnd Hiff]. split; [exact Hnd|].
      intros id. rewrite Hiff. simpl. split.
      * intros [? ?]. auto.
      * intros [Hid [<-|?]]; [contradiction | auto].
    + rewrite (marksOf_collect_new cfg spot rest known Hnew).
      destruct (IH (known ++ [spotId spot])) as [Hnd Hiff]. split.
      * constructor; [|exact Hnd]. rewrite Hiff. intros [Hn _].
        apply Hn, in_or_app. right. left. reflexivity.
      * intros id. simpl. rewrite Hiff, in_app_iff. simpl. split.
        -- intros [<-|[Hn Hi]]; [auto|]. split; [tauto | auto].
        -- intros [Hn [<-|Hi]]; [auto|].
           destruct (Z.eq_dec (spotId spot) id) as [->|Hd]; [auto|].
           right. split; [|exact Hi]. intros [?|[?|[]]]; contradiction.
Qed.

(** What the loop marks, and the index it leaves, do not depend on the
    filter configuration. *)
Lemma collect_marks_any_config cfg cfg' (spots : list Spot) :
  forall known,
    marksOf (snd (collectNewSpots cfg spots known))
    = marksOf (snd (collectNewSpots cfg' spots known)).
Proof.
  induction spots as [|spot rest IH]; intros known; [reflexivity|].
  destruct (in_dec Z.eq_dec (spotId spot) known) as [Hin|Hnew].
  - rewrite !(collect_known _ spot rest known Hin). apply IH.
  - rewrite !(marksOf_collect_new _ spot rest known Hnew). f_equal. apply IH.
Qed.

(** None of the loop's steps, and none of the spots it collects, bears an
    identity that was in the index. *)
Lemma collect_skips_known cfg (spots : list Spot) :
  forall known id,
    In id known ->
    filter (concerns id) (snd (collectNewSpots cfg spots known)) = []
    /\ forall s, In s (snd (fst (collectNewSpots cfg spots known))) ->
                 spotId s <> id.
Proof.
  induction spots as [|spot rest IH]; intros known id Hid.
  - simpl. split; [reflexivity | intros s []].
  - destruct (in_dec Z.eq_dec (spotId spot) known) as [Hin|Hnew].
    + rewrite (collect_known cfg spot rest known Hin). apply IH, Hid.
    + rewrite (collect_new cfg spot rest known Hnew). cbn [fst snd].
      assert (Hne : (spotId spot =? id)%Z = false).
      { apply Z.eqb_neq. intros E. rewrite E in Hnew. contradiction. }
      destruct (IH (known ++ [spotId spot]) id) as [Hs Hf];
        [apply in_or_app; auto|].
      split.
      * destruct cfg; simpl; rewrite Hne; exact Hs.
      * intros s Hin. apply Z.eqb_neq in Hne.
        destruct cfg as [c|]; [|auto].
        destruct (applyFilter spot (Some c)); [|auto].
        destruct Hin as [<-|Hin]; auto.
Qed.

Lemma evict_sliceLast (known : list Z) :
  evict known = JS.sliceLast 1000 known.
Proof.
  unfold evict, JS.sliceLast.
  destruct (Nat.ltb_spec 1000 (length known)); [reflexivity|].
  replace (length known - 1000)%nat with 0%nat by lia. reflexivity.
Qed.

Lemma sliceLast_length {A} (n : nat) (l : list A) :
  length (JS.sliceLast n l) = Nat.min n (length l).
Proof. unfold JS.sliceLast. rewrite length_skipn. lia. Qed.

(** Bounding, appending and bounding again keeps what bounding the whole
    list keeps. *)
Lemma sliceLast_app {A} (n : nat) (a b : list A) :
  JS.sliceLast n (JS.sliceLast n a ++ b) = JS.sliceLast n (a ++ b).
Proof.
  unfold JS.sliceLast.
  rewrite !skipn_app, skipn_skipn, !length_app, !length_skipn.
  destruct (Nat.le_gt_cases n (length a)).
  - f_equal; f_equal; lia.
  - f_equal; f_equal; lia.
Qed.

(** A batch of pairwise different identities none of which is in the index
    is marked entirely, in feed order. *)
Lemma collect_all_fresh cfg (spots : list Spot) :
  forall known,
    NoDup (known ++ map spotId spots) ->
    marksOf (snd (collectNewSpots cfg spots known)) = map spotId spots.
Proof.
  induction spots as [|spot rest IH]; intros known Hnd; [reflexivity|].
  simpl in Hnd.
  assert (Hnew : ~ In (spotId spot) known).
  { apply NoDup_remove_2 in Hnd. intros H. apply Hnd, in_or_app. auto. }
  rewrite (marksOf_collect_new cfg spot rest known Hnew). simpl. f_equal.
  apply IH. rewrite <- app_assoc. exact Hnd.
Qed.

Lemma marksOf_dispatch st w fs : marksOf (dispatch st w fs) = [].
Proof.
  apply flat_map_nil_on. intros e He. apply dispatch_steps in He.
  destruct He as [(p & -> & _)|[(s & -> & _)|[(s & -> & _)|[(s & -> & _)|
                 [(a & ->)|(m & ->)]]]]]; reflexivity.
Qed.

Lemma marksOf_processSpots st w spots :
  marksOf (snd (processSpots st w spots)) = marksOf (loopSteps st spots).
Proof.
  rewrite processSpots_trace, marksOf_app.
  destruct (0 <? length (newFilteredSpots st spots))%nat.
  - rewrite marksOf_dispatch. apply app_nil_r.
  - apply app_nil_r.
Qed.

(** The index after a poll cycle: the old index and the identities marked
    in the cycle, in insertion order, cut down to the last 1000. *)
Lemma processSpots_index_fifo st w spots :
  knownSpotIds (fst (processSpots st w spots))
  = JS.sliceLast 1000
      (knownSpotIds st ++ marksOf (snd (processSpots st w spots))).
Proof.
  rewrite processSpots_index, evict_sliceLast, marksOf_processSpots.
  unfold loopIndex, loopSteps. rewrite collect_index. reflexivity.
Qed.

Lemma runCycles_cons st w spots rest :
  fst (runCycles st ((w, spots) :: rest))
  = fst (runCycles (fst (processSpots st w spots)) rest).
Proof.
  simpl. destruct (processSpots st w spots) as [st1 steps1]. cbn [fst].
  destruct (runCycles st1 rest) as [st2 steps2]. reflexivity.
Qed.

Lemma NoDup_sliceLast_app {A} (n : nat) (a b : list A) :
  NoDup (a ++ b) -> NoDup (JS.sliceLast n a ++ b).
Proof.
  unfold JS.sliceLast. intros H.
  rewrite <- (firstn_skipn (length a - n) a), <- app_assoc in H.
  exact (NoDup_app_remove_l _ _ H).
Qed.

(** Cycles that only bring identities never seen before leave the last 1000
    of everything inserted so far. *)
Lemma runCycles_index_fresh (cycles : list (World * list Spot)) :
  forall st,
    (length (knownSpotIds st) <= 1000)%nat ->
    NoDup (knownSpotIds st ++ idsOf cycles) ->
    knownSpotIds (fst (runCycles st cycles))
    = JS.sliceLast 1000 (knownSpotIds st ++ idsOf cycles).
Proof.
  induction cycles as [|[w spots] rest IH]; intros st Hlen Hnd.
  - simpl. rewrite app_nil_r. unfold JS.sliceLast.
    replace (length (knownSpotIds st) - 1000)%nat with 0%nat by lia.
    reflexivity.
  - rewrite runCycles_cons.
    change (idsOf ((w, spots) :: rest)) with (map spotId spots ++ idsOf rest)
      in *.
    rewrite app_assoc in Hnd.
    assert (Hidx : knownSpotIds (fst (processSpots st w spots))
                   = JS.sliceLast 1000 (knownSpotIds st ++ map spotId spots)).
    { rewrite processSpots_index_fifo, marksOf_processSpots. unfold loopSteps.
      rewrite collect_all_fresh; [reflexivity|].
      exact (NoDup_app_remove_r _ _ Hnd). }
    rewrite IH.
    + rewrite Hidx, sliceLast_app, <- app_assoc. reflexivity.
    + rewrite Hidx, sliceLast_length. lia.
    + rewrite Hidx. apply NoDup_sliceLast_app. exact Hnd.
Qed.

(** C3: after a poll cycle the index holds the identities inserted so far -
    the old index followed by the identities marked in the cycle, in
    insertion order - when these are at most 1000; when they are more, it
    holds exactly 1000 of them, the most recently inserted ones, the oldest
    having been evicted.  In particular, feeding 1001 pairwise different
    identities into an empty index, in any division into batches, leaves
    exactly 1000 identities, all but the first one inserted. *)
Theorem novelty_index_is_fifo :
  (forall st w spots,
      let inserted :=
        knownSpotIds st ++ marksOf (snd (processSpots st w spots)) in
      let index := knownSpotIds (fst (processSpots st w spots)) in
      ((length inserted <= 1000)%nat -> index = inserted)
      /\ ((1000 < length inserted)%nat ->
          length index = 1000%nat
          /\ exists evicted, inserted = evicted ++ index))
  /\ (forall st cycles,
        knownSpotIds st = [] ->
        NoDup (idsOf cycles) ->
        length (idsOf cycles) = 1001%nat ->
        let index := knownSpotIds (fst (runCycles st cycles)) in
        length index = 1000%nat
        /\ ~ In (hd 0%Z (idsOf cycles)) index
        /\ index = tl (idsOf cycles)).
Proof.
  split.
  - intros st w spots. cbv zeta. rewrite processSpots_index_fifo.
    set (inserted := knownSpotIds st ++ marksOf (snd (processSpots st w spots))).
    split; intros H.
    + unfold JS.sliceLast.
      replace (length inserted - 1000)%nat with 0%nat by lia. reflexivity.
    + split; [rewrite sliceLast_length; lia|].
      exists (firstn (length inserted - 1000) inserted).
      unfold JS.sliceLast. symmetry. apply firstn_skipn.
  - intros st cycles Hempty Hnd Hlen. cbv zeta.
    rewrite runCycles_index_fresh; rewrite Hempty; simpl;
      [| lia | exact Hnd].
    unfold JS.sliceLast. rewrite Hlen.
    change (1001 - 1000)%nat with 1%nat.
    destruct (idsOf cycles) as [|id ids]; [discriminate|].
    simpl. repeat split.
    + simpl in Hlen. lia.
    + apply NoDup_cons_iff in Hnd. tauto.
Qed.

Lemma NoDup_map_injective {A B} (f : A -> B) (l : list A) :
  (forall x y, f x = f y -> x = y) -> NoDup l -> NoDup (map f l).
Proof.
  intros Hinj Hnd. induction Hnd as [|a l Hnotin Hnd IH]; simpl.
  - constructor.
  - constructor; [|exact IH]. intros Hin. apply in_map_iff in Hin.
    destruct Hin as (x & Hfx & Hx). apply Hinj in Hfx. subst. contradiction.
Qed.

Lemma NoDup_of_nat_seq (a n : nat) : NoDup (map Z.of_nat (seq a n)).
Proof.
  apply NoDup_map_injective; [apply Nat2Z.inj | apply seq_NoDup].
Qed.

Lemma novelty_index_is_fifo_witness :
  knownSpotIds (fst (runCycles freshState [(calmWorld, thousandAndOne)]))
  = map Z.of_nat (seq 1 1000)
  /\ knownSpotIds (fst (runCycles freshState oneByOneCycles))
     = map Z.of_nat (seq 1 1000).
Proof.
  destruct novelty_index_is_fifo as [_ H].
  assert (H1 : idsOf [(calmWorld, thousandAndOne)] = map Z.of_nat (seq 0 1001))
    by (vm_compute; reflexivity).
  assert (H2 : idsOf oneByOneCycles = map Z.of_nat (seq 0 1001))
    by (vm_compute; reflexivity).
  split.
  - destruct (H freshState [(calmWorld, thousandAndOne)]) as (_ & _ & ->).
    + reflexivity.
    + rewrite H1. apply NoDup_of_nat_seq.
    + rewrite H1. vm_compute. reflexivity.
    + rewrite H1. vm_compute. reflexivity.
  - destruct (H freshState oneByOneCycles) as (_ & _ & ->).
    + reflexivity.
    + rewrite H2. apply NoDup_of_nat_seq.
    + rewrite H2. vm_compute. reflexivity.
    + rewrite H2. vm_compute. reflexivity.
Defined.

(** After 1001 new identities the first one has been evicted; when its
    record comes again it is marked, evaluated and dispatched a second
    time. *)
Lemma evicted_identity_counterexample :
  count_occ Z.eq_dec (marksOf (snd (runCycles freshState evictionCycles))) 0%Z
  = 2%nat
  /\ count_occ Z.eq_dec
       (map spotId (alertsOf (snd (runCycles freshState evictionCycles)))) 0%Z
     = 2%nat.
Proof. split; vm_compute; reflexivity. Qed.

(** In the steps of the novelty loop every filter evaluation comes right
    after the marking of the same record's identity. *)
Lemma collect_eval_after_mark cfg (spots : list Spot) :
  forall known pre s post,
    snd (collectNewSpots cfg spots known) = pre ++ FilterEval s :: post ->
    exists pre', pre = pre' ++ [MarkSeen (spotId s)].
Proof.
  induction spots as [|spot rest IH]; intros known pre s post.
  - simpl. destruct pre; discriminate.
  - destruct (in_dec Z.eq_dec (spotId spot) known) as [Hin|Hnew].
    + rewrite (collect_known cfg spot rest known Hin). apply IH.
    + rewrite (collect_new cfg spot rest known Hnew). cbn [snd].
      destruct cfg as [c|].
      * destruct pre as [|e1 [|e2 pre]]; simpl; intros E.
        -- discriminate.
        -- injection E as <- <- _. exists []. reflexivity.
        -- injection E as <- <- E. apply IH in E. destruct E as (pre' & ->).
           exists (MarkSeen (spotId spot) :: FilterEval spot :: pre').
           reflexivity.
      * destruct pre as [|e1 pre]; simpl; intros E.
        -- discriminate.
        -- injection E as <- E. apply IH in E. destruct E as (pre' & ->).
           exists (MarkSeen (spotId spot) :: pre'). reflexivity.
Qed.

Lemma dispatch_no_eval st w fs (s : Spot) :
  ~ In (FilterEval s) (dispatch st w fs).
Proof.
  intros H. apply dispatch_steps in H.
  destruct H as [(p & E & _)|[(x & E & _)|[(x & E & _)|[(x & E & _)|
                [(a & E)|(m & E)]]]]]; discriminate.
Qed.

Lemma dispatch_skips st w fs (id : Z) :
  (forall s, In s fs -> spotId s <> id) ->
  filter (concerns id) (dispatch st w fs) = [].
Proof.
  intros Hfs. apply filter_none. intros e He. apply dispatch_steps in He.
  destruct He as [(p & -> & _)|[(s & -> & Hs)|[(s & -> & Hs)|[(s & -> & Hs)|
                 [(a & ->)|(m & ->)]]]]]; simpl;
    try reflexivity; apply Z.eqb_neq, Hfs, Hs.
Qed.

(** C2 (amended): a record whose identity is in the index when the loop
    reaches it is passed over - no marking, no filter evaluation, no
    dispatch, whatever the configuration; so no step of a poll cycle concerns
    an identity that was in the index when the cycle began.  An identity of
    the batch that was not in the index is added to it exactly once in that
    cycle, whatever the filter configuration, and every filter evaluation
    comes right after the marking of the record's identity.  (An identity
    the bound has evicted is not in the index and is handled as new.) *)
Theorem novelty_marking (st : AppState) (w : World) (spots : list Spot) :
  let trace := snd (processSpots st w spots) in
  (forall cfg known spot rest,
      In (spotId spot) known ->
      collectNewSpots cfg (spot :: rest) known
      = collectNewSpots cfg rest known)
  /\ (forall id, In id (knownSpotIds st) -> filter (concerns id) trace = [])
  /\ (forall id,
        ~ In id (knownSpotIds st) -> In id (map spotId spots) ->
        count_occ Z.eq_dec (marksOf trace) id = 1%nat
        /\ In id (loopIndex st spots))
  /\ (forall pre s post,
        trace = pre ++ FilterEval s :: post ->
        exists pre', pre = pre' ++ [MarkSeen (spotId s)])
  /\ (forall cfg',
        marksOf (snd (processSpots
                        (mkAppState (knownSpotIds st) cfg'
                                    (notificationSettings st)) w spots))
        = marksOf trace).
Proof.
  cbv zeta. repeat apply conj.
  - intros cfg known spot rest. apply collect_known.
  - intros id Hid. rewrite processSpots_trace, filter_app.
    destruct (collect_skips_known (filterConfig st) spots (knownSpotIds st)
                id Hid) as [Hs Hf].
    unfold loopSteps. rewrite Hs. simpl.
    destruct (0 <? length (newFilteredSpots st spots))%nat; [|reflexivity].
    apply dispatch_skips. exact Hf.
  - intros id Hnew Hin. rewrite marksOf_processSpots. unfold loopSteps, loopIndex.
    destruct (collect_marks (filterConfig st) spots (knownSpotIds st))
      as [Hnd Hiff].
    assert (Hm : In id (marksOf (snd (collectNewSpots (filterConfig st) spots
                                        (knownSpotIds st)))))
      by (apply Hiff; auto).
    split.
    + revert Hm. apply NoDup_count_occ'. exact Hnd.
    + rewrite collect_index. apply in_or_app. right. exact Hm.
  - intros pre s post. rewrite processSpots_trace. intros E.
    apply app_eq_app in E. destruct E as (l & [[E1 E2] | [E1 E2]]).
    + destruct l as [|e l].
      * exfalso. rewrite app_nil_r in E1. simpl in E2.
        destruct (0 <? length (newFilteredSpots st spots))%nat;
          [|discriminate].
        apply (dispatch_no_eval st w (newFilteredSpots st spots) s).
        rewrite <- E2. left. reflexivity.
      * injection E2 as <- _.
        apply (collect_eval_after_mark (filterConfig st) spots
                 (knownSpotIds st) pre s l). exact E1.
    + exfalso.
      destruct (0 <? length (newFilteredSpots st spots))%nat;
        [|destruct l; discriminate].
      apply (dispatch_no_eval st w (newFilteredSpots st spots) s).
      rewrite E2. apply in_or_app. right. left. reflexivity.
  - intros cfg'. rewrite !marksOf_processSpots. unfold loopSteps. simpl.
    apply collect_marks_any_config.
Qed.

Lemma novelty_marking_witness :
  marksOf (snd (processSpots cappedState calmWorld
                  (fiveSpots ++ [bareSpot 11])))
  = [11; 12; 13; 14; 15]%Z
  /\ filter (concerns 11%Z)
       (snd (processSpots (fst (processSpots cappedState calmWorld fiveSpots))
               calmWorld [bareSpot 11]))
     = [].
Proof.
  split; [reflexivity|].
  destruct (novelty_marking (fst (processSpots cappedState calmWorld fiveSpots))
              calmWorld [bareSpot 11]) as (_ & H & _).
  apply H. simpl. auto.
Defined.

(* ================================================================== *)
(** * Further properties of the filter engine *)








Lemma prefix_refl (s : string) : prefix s s = true.
Proof.
  induction s as [|c s IH]; simpl; [reflexivity|].
  destruct (ascii_dec c c); [exact IH | contradiction].
Qed.

Lemma includes_refl (s : string) : JS.includes s s = true.
Proof. destruct s; simpl; [reflexivity|]. 
  destruct (ascii_dec a a); [|contradiction]. rewrite prefix_refl. reflexivity.
Qed.

(** X2: a condition that matches a field value as ['exact'] also matches it
    when its type is changed to ['contains']. *)
Theorem exact_match_is_contains_match
  (fv : option string) (c : FilterCondition) :
  type c = Some "exact" ->
  checkConditionMatch fv (Some c) = true ->
  checkConditionMatch fv (Some (setType (Some "contains") c)) = true.
Proof.
  intros Ht. unfold checkConditionMatch, typeIs, setType. rewrite Ht. simpl.
  destruct (negb (JS.truthy (value c))); [discriminate|].
  unfold caseInsensitiveEquals, caseInsensitiveContains.
  destruct fv as [s|]; [|discriminate].
  destruct (value c) as [p|]; [|discriminate].
  intros H. apply String.eqb_eq in H. rewrite H. apply includes_refl.
Qed.

Lemma exact_match_is_contains_match_witness :
  checkConditionMatch (Some "FT8") (Some (setType (Some "contains") ft8Exact))
  = true.
Proof.
  apply exact_match_is_contains_match; reflexivity.
Defined.

Lemma filter_filter_implied {A} (f g : A -> bool) (l : list A) :
  (forall x, f x = true -> g x = true) ->
  filter f (filter g l) = filter f l.
Proof.
  intros H. induction l as [|a l IH]; simpl; [reflexivity|].
  destruct (g a) eqn:Hg; simpl.
  - rewrite IH. reflexivity.
  - destruct (f a) eqn:Hf; [|exact IH].
    apply H in Hf. congruence.
Qed.

Lemma isInclude_notDisabled c : isInclude c = true -> notDisabled c = true.
Proof. unfold isInclude. intros H. apply andb_prop in H. tauto. Qed.

Lemma isExclude_notDisabled c : isExclude c = true -> notDisabled c = true.
Proof. unfold isExclude. intros H. apply andb_prop in H. tauto. Qed.

(** [applyFieldFilter] looks at the enabled include conditions only. *)
Lemma applyFieldFilter_includes fv f conds :
  conditions f = Some conds ->
  applyFieldFilter fv (Some f)
  = match filter isInclude conds with
    | [] => true
    | incl =>
        if (if JS.truthy (operator f) then JS.orEmpty (operator f) else "or")
           =? "and"
        then forallb (fun c => checkConditionMatch fv (Some c)) incl
        else existsb (fun c => checkConditionMatch fv (Some c)) incl
    end.
Proof.
  intros Hc. unfold applyFieldFilter. rewrite Hc.
  destruct conds as [|c0 conds]; [reflexivity|]. cbv zeta.
  destruct (filter isInclude (c0 :: conds)); reflexivity.
Qed.

Lemma applyFieldFilter_dropDisabled fv f :
  applyFieldFilter fv (dropDisabledField f) = applyFieldFilter fv f.
Proof.
  destruct f as [f|]; [|reflexivity]. cbn [dropDisabledField].
  destruct (conditions f) as [conds|] eqn:Hc.
  - rewrite (applyFieldFilter_includes fv
               (mkFieldFilter (Some (filter notDisabled conds)) (operator f))
               (filter notDisabled conds) eq_refl).
    rewrite (applyFieldFilter_includes fv f conds Hc). cbn [operator].
    rewrite (filter_filter_implied _ _ _ isInclude_notDisabled). reflexivity.
  - unfold applyFieldFilter. cbn [conditions]. rewrite Hc. reflexivity.
Qed.

Lemma excludeConditions_dropDisabled cfg field :
  excludeConditions (dropDisabled cfg) field = excludeConditions cfg field.
Proof.
  unfold excludeConditions.
  assert (H : configField (dropDisabled cfg) field
              = dropDisabledField (configField cfg field))
    by (destruct field; reflexivity).
  rewrite H. destruct (configField cfg field) as [f|]; [|reflexivity]. simpl.
  destruct (conditions f) as [conds|]; [|reflexivity].
  apply filter_filter_implied, isExclude_notDisabled.
Qed.

(** X3: conditions that are switched off are inert: removing all of them
    from every field of a configuration never changes the verdict of
    [applyFilter]. *)
Theorem disabled_conditions_are_inert (spot : Spot) (cfg : FilterConfig) :
  applyFilter spot (Some (dropDisabled cfg)) = applyFilter spot (Some cfg).
Proof.
  unfold applyFilter.
  change (ignoreOtherSpotters (dropDisabled cfg)) with (ignoreOtherSpotters cfg).
  destruct (JS.truthyb (ignoreOtherSpotters cfg)
            && negb (callsignsMatch (activator spot) (spotter spot)));
    [reflexivity|].
  assert (Hex : excludeHit spot (dropDisabled cfg) = excludeHit spot cfg).
  { unfold excludeHit, fields. cbn [existsb].
    rewrite !excludeConditions_dropDisabled. reflexivity. }
  rewrite Hex. destruct (excludeHit spot cfg); [reflexivity|].
  simpl. rewrite !applyFieldFilter_dropDisabled. reflexivity.
Qed.

Lemma forallb_existsb_nonempty {A} (f : A -> bool) (a : A) (l : list A) :
  forallb f (a :: l) = true -> existsb f (a :: l) = true.
Proof. simpl. intros H. apply andb_prop in H. destruct H as [-> _]. reflexivity. Qed.

(** X4: with the same conditions, a field value that passes under the
    operator ['and'] passes under every other operator as well. *)
Theorem and_is_stricter_than_or
  (fv : option string) (conds : list FilterCondition) (op : option string) :
  applyFieldFilter fv (Some (mkFieldFilter (Some conds) (Some "and"))) = true ->
  applyFieldFilter fv (Some (mkFieldFilter (Some conds) op)) = true.
Proof.
  rewrite (applyFieldFilter_includes fv
             (mkFieldFilter (Some conds) (Some "and")) conds eq_refl).
  rewrite (applyFieldFilter_includes fv
             (mkFieldFilter (Some conds) op) conds eq_refl).
  cbn [operator].
  destruct (filter isInclude conds) as [|c incl]; [reflexivity|].
  change ((if JS.truthy (Some "and") then JS.orEmpty (Some "and") else "or")
          =? "and") with true.
  cbv iota. intros H.
  destruct ((if JS.truthy op then JS.orEmpty op else "or") =? "and");
    [exact H | apply forallb_existsb_nonempty, H].
Qed.

Lemma and_is_stricter_than_or_witness :
  applyFieldFilter (Some "FT8") (Some (mkFieldFilter (Some ft8Conditions) (Some "or")))
  = true
  /\ applyFieldFilter (Some "FT8") (Some (mkFieldFilter (Some ft8Conditions) None))
     = true.
Proof.
  split; apply and_is_stricter_than_or; reflexivity.
Defined.

(** X5: the fields are combined by AND: a record whose value of one tracked
    field fails that field's include filter is rejected, whatever the other
    fields say. *)
Theorem failing_field_rejects (spot : Spot) (cfg : FilterConfig) (field : Field) :
  applyFieldFilter (Some (JS.orEmpty (spotField spot field)))
                   (configField cfg field) = false ->
  applyFilter spot (Some cfg) = false.
Proof.
  intros H. unfold applyFilter.
  destruct (JS.truthyb (ignoreOtherSpotters cfg)
            && negb (callsignsMatch (activator spot) (spotter spot)));
    [reflexivity|].
  destruct (excludeHit spot cfg); [reflexivity|].
  destruct field; simpl in H; cbv zeta; rewrite H;
    rewrite ?andb_false_r; reflexivity.
Qed.

Lemma failing_field_rejects_witness :
  applyFieldFilter (reference ssbSpot) (filter_reference threeFieldConfig) = true
  /\ applyFieldFilter (mode ssbSpot) (filter_mode threeFieldConfig) = true
  /\ applyFilter ssbSpot (Some threeFieldConfig) = false.
Proof.
  split; [reflexivity | split; [reflexivity|]].
  apply (failing_field_rejects ssbSpot threeFieldConfig Comments). reflexivity.
Defined.

(** X6: a configuration whose reporter check is off and whose conditions
    are all switched off - in particular one without conditions, such as the
    default - accepts every record. *)
Theorem all_disabled_accepts_all (spot : Spot) (cfg : FilterConfig) :
  JS.truthyb (ignoreOtherSpotters cfg) = false ->
  (forall field f conds c,
      configField cfg field = Some f -> conditions f = Some conds ->
      In c conds -> enabled c = Some false) ->
  applyFilter spot (Some cfg) = true.
Proof.
  intros Hig Hall. unfold applyFilter. rewrite Hig. cbn [andb].
  assert (Hex : excludeHit spot cfg = false).
  { destruct (excludeHit spot cfg) eqn:E; [|reflexivity].
    apply excludeHit_iff in E. destruct E as (field & c & Hin & _).
    unfold excludeConditions in Hin.
    destruct (configField cfg field) as [f|] eqn:Hf; [|destruct Hin].
    destruct (conditions f) as [conds|] eqn:Hc; [|destruct Hin].
    apply filter_In in Hin. destruct Hin as [Hin Hx].
    apply isExclude_iff in Hx. destruct Hx as [_ Hx].
    exfalso. apply Hx. exact (Hall field f conds c Hf Hc Hin). }
  rewrite Hex.
  assert (Hpass : forall field v,
             applyFieldFilter v (configField cfg field) = true).
  { intros field v.
    destruct (configField cfg field) as [f|] eqn:Hf; [|reflexivity].
    destruct (conditions f) as [conds|] eqn:Hc.
    - rewrite (applyFieldFilter_includes v f conds Hc).
      assert (Hnil : filter isInclude conds = []).
      { apply filter_nil_iff. intros c Hin. apply isInclude_false_iff.
        left. exact (Hall field f conds c Hf Hc Hin). }
      rewrite Hnil. reflexivity.
    - unfold applyFieldFilter. rewrite Hc. reflexivity. }
  cbv zeta.
  rewrite (Hpass Reference), (Hpass Comments), (Hpass Mode), (Hpass Frequency).
  reflexivity.
Qed.

Lemma all_disabled_accepts_all_witness :
  applyFilter cwSpot (Some allDisabledConfig) = true
  /\ applyFilter blankCallsignSpot (Some defaultConfig) = true.
Proof.
  split; apply all_disabled_accepts_all; try reflexivity.
  - intros [] f conds c; simpl; intros [= <-] [= <-]; simpl;
      try contradiction.
    intros [<-|[<-|[]]]; reflexivity.
  - intros [] f conds c; simpl; intros [= <-] [= <-] [].
Defined.

(** X7: callsign matching is symmetric and transitive, and a callsign
    matches itself exactly when it is present and not empty. *)
Theorem callsignsMatch_partial_equivalence :
  (forall a b, callsignsMatch a b = callsignsMatch b a)
  /\ (forall a b c,
        callsignsMatch a b = true -> callsignsMatch b c = true ->
        callsignsMatch a c = true)
  /\ (forall a, callsignsMatch a a = JS.truthy a).
Proof.
  repeat apply conj.
  - intros a b. rewrite !callsignsMatch_spec. unfold callsignEquivalent.
    rewrite (String.eqb_sym (specNormalize (JS.orEmpty b))).
    destruct (JS.truthy a), (JS.truthy b); reflexivity.
  - intros a b c. rewrite !callsignsMatch_spec. unfold callsignEquivalent.
    destruct (JS.truthy a), (JS.truthy b), (JS.truthy c); simpl;
      try discriminate.
    intros H1 H2. apply String.eqb_eq in H1, H2. apply String.eqb_eq.
    congruence.
  - intros a. rewrite callsignsMatch_spec. unfold callsignEquivalent.
    rewrite String.eqb_refl. destruct (JS.truthy a); reflexivity.
Qed.

Section CallsignNormalForm.

Lemma upperChar_slash (c : ascii) :
  Ascii.eqb (JS.upperChar c) "/" = Ascii.eqb c "/".
Proof. destruct c as [[] [] [] [] [] [] [] []]; reflexivity. Qed.

Lemma upperChar_space (c : ascii) :
  JS.isWhiteSpace (JS.upperChar c) = JS.isWhiteSpace c.
Proof. destruct c as [[] [] [] [] [] [] [] []]; reflexivity. Qed.

Lemma upperChar_upperChar (c : ascii) :
  JS.upperChar (JS.upperChar c) = JS.upperChar c.
Proof. destruct c as [[] [] [] [] [] [] [] []]; reflexivity. Qed.

Lemma toUpperCase_idempotent (s : string) :
  JS.toUpperCase (JS.toUpperCase s) = JS.toUpperCase s.
Proof.
  induction s as [|c s IH]; simpl; [reflexivity|].
  rewrite upperChar_upperChar, IH. reflexivity.
Qed.

Lemma splitHead_toUpperCase (s : string) :
  JS.splitHead "/" (JS.toUpperCase s) = JS.toUpperCase (JS.splitHead "/" s).
Proof.
  induction s as [|c s IH]; simpl; [reflexivity|].
  rewrite upperChar_slash. destruct (Ascii.eqb c "/"); simpl; congruence.
Qed.

Lemma trimStart_toUpperCase (s : string) :
  JS.trimStart (JS.toUpperCase s) = JS.toUpperCase (JS.trimStart s).
Proof.
  induction s as [|c s IH]; simpl; [reflexivity|].
  rewrite upperChar_space. destruct (JS.isWhiteSpace c); [exact IH | reflexivity].
Qed.

Lemma trimEnd_toUpperCase (s : string) :
  JS.trimEnd (JS.toUpperCase s) = JS.toUpperCase (JS.trimEnd s).
Proof.
  induction s as [|c s IH]; simpl; [reflexivity|].
  rewrite IH, upperChar_space.
  destruct (JS.trimEnd s); simpl; [destruct (JS.isWhiteSpace c)|]; reflexivity.
Qed.

Lemma trim_toUpperCase (s : string) :
  JS.trim (JS.toUpperCase s) = JS.toUpperCase (JS.trim s).
Proof.
  unfold JS.trim. rewrite trimStart_toUpperCase. apply trimEnd_toUpperCase.
Qed.

Lemma splitHead_idempotent (s : string) :
  JS.splitHead "/" (JS.splitHead "/" s) = JS.splitHead "/" s.
Proof.
  induction s as [|c s IH]; simpl; [reflexivity|].
  destruct (Ascii.eqb c "/") eqn:E; simpl; [reflexivity|].
  rewrite E, IH. reflexivity.
Qed.

(** Trimming a text without [/] gives a text without [/]. *)
Lemma splitHead_trimStart (s : string) :
  JS.splitHead "/" s = s -> JS.splitHead "/" (JS.trimStart s) = JS.trimStart s.
Proof.
  induction s as [|c s IH]; simpl; [reflexivity|].
  destruct (Ascii.eqb c "/") eqn:E; [discriminate|].
  intros H. injection H as H.
  destruct (JS.isWhiteSpace c); [apply IH, H|].
  simpl. rewrite E, H. reflexivity.
Qed.

Lemma splitHead_trimEnd (s : string) :
  JS.splitHead "/" s = s -> JS.splitHead "/" (JS.trimEnd s) = JS.trimEnd s.
Proof.
  induction s as [|c s IH]; simpl; [reflexivity|].
  destruct (Ascii.eqb c "/") eqn:E; [discriminate|].
  intros H. injection H as H. specialize (IH H).
  destruct (JS.trimEnd s) as [|c' t].
  - destruct (JS.isWhiteSpace c); simpl; [reflexivity|].
    rewrite E. reflexivity.
  - simpl in *. rewrite E. destruct (Ascii.eqb c' "/"); congruence.
Qed.

Lemma trimEnd_idempotent (s : string) :
  JS.trimEnd (JS.trimEnd s) = JS.trimEnd s.
Proof.
  induction s as [|c s IH]; simpl; [reflexivity|].
  destruct (JS.trimEnd s) as [|c' t] eqn:E.
  - destruct (JS.isWhiteSpace c) eqn:W; simpl; [reflexivity|].
    rewrite W. reflexivity.
  - change (JS.trimEnd (String c (String c' t))) with
      (match JS.trimEnd (String c' t) with
       | EmptyString =>
           if JS.isWhiteSpace c then EmptyString else String c EmptyString
       | t' => String c t'
       end).
    rewrite IH. reflexivity.
Qed.

(** A text that does not begin with white space still does not after its
    end is trimmed. *)
Lemma trimStart_trimEnd (s : string) :
  JS.trimStart s = s -> JS.trimStart (JS.trimEnd s) = JS.trimEnd s.
Proof.
  destruct s as [|c s]; [reflexivity|]. simpl.
  destruct (JS.isWhiteSpace c) eqn:W.
  - intros H. exfalso.
    assert (L : forall x, String.length (JS.trimStart x) <= String.length x).
    { induction x as [|a x IHx]; simpl; [lia|].
      destruct (JS.isWhiteSpace a); simpl; lia. }
    specialize (L s). rewrite H in L. simpl in L. lia.
  - intros _. destruct (JS.trimEnd s); simpl; rewrite W; reflexivity.
Qed.

Lemma trimStart_idempotent (s : string) :
  JS.trimStart (JS.trimStart s) = JS.trimStart s.
Proof.
  induction s as [|c s IH]; simpl; [reflexivity|].
  destruct (JS.isWhiteSpace c) eqn:W; [exact IH|]. simpl. rewrite W.
  reflexivity.
Qed.

Lemma trim_idempotent (s : string) : JS.trim (JS.trim s) = JS.trim s.
Proof.
  unfold JS.trim.
  rewrite (trimStart_trimEnd (JS.trimStart s)) by apply trimStart_idempotent.
  apply trimEnd_idempotent.
Qed.

Lemma splitHead_trim (s : string) :
  JS.splitHead "/" s = s -> JS.splitHead "/" (JS.trim s) = JS.trim s.
Proof.
  intros H. unfold JS.trim. apply splitHead_trimEnd, splitHead_trimStart, H.
Qed.

Lemma specNormalize_idempotent (s : string) :
  specNormalize (specNormalize s) = specNormalize s.
Proof.
  unfold specNormalize.
  rewrite splitHead_toUpperCase, trim_toUpperCase, toUpperCase_idempotent.
  rewrite (splitHead_trim (JS.splitHead "/" s)) by apply splitHead_idempotent.
  rewrite trim_idempotent. reflexivity.
Qed.

Lemma splitHead_suffix (base suffix : string) :
  ~ In "/"%char (list_ascii_of_string base) ->
  JS.splitHead "/" (String.append base (String "/" suffix)) = base.
Proof.
  induction base as [|c base IH]; simpl.
  - reflexivity.
  - intros H. destruct (Ascii.eqb_spec c "/") as [->|_].
    + exfalso. apply H. left. reflexivity.
    + rewrite IH; [reflexivity|]. intros Hin. apply H. right. exact Hin.
Qed.

Lemma splitHead_no_slash (base : string) :
  ~ In "/"%char (list_ascii_of_string base) ->
  JS.splitHead "/" base = base.
Proof.
  induction base as [|c base IH]; simpl; [reflexivity|].
  intros H. destruct (Ascii.eqb_spec c "/") as [->|_].
  - exfalso. apply H. left. reflexivity.
  - rewrite IH; [reflexivity|]. intros Hin. apply H. right. exact Hin.
Qed.

End CallsignNormalForm.

(** X8: whatever follows the first [/] of a callsign is ignored: a callsign
    without [/] that is not empty matches itself with any suffix [/...]
    appended, as in "JK1AZT/8" against "JK1AZT". *)
Theorem callsign_suffix_is_ignored (base suffix : string) :
  base <> "" ->
  ~ In "/"%char (list_ascii_of_string base) ->
  callsignsMatch (Some (String.append base (String "/" suffix))) (Some base)
  = true.
Proof.
  intros Hne Hslash. rewrite callsignsMatch_spec.
  assert (H1 : JS.truthy (Some (String.append base (String "/" suffix))) = true).
  { destruct base; [contradiction | reflexivity]. }
  assert (H2 : JS.truthy (Some base) = true).
  { destruct base; [contradiction | reflexivity]. }
  rewrite H1, H2. unfold callsignEquivalent, specNormalize. simpl JS.orEmpty.
  rewrite splitHead_suffix, splitHead_no_slash by assumption.
  apply String.eqb_refl.
Qed.

Lemma callsign_suffix_is_ignored_witness :
  callsignsMatch (Some "JK1AZT/8") (Some "JK1AZT") = true.
Proof.
  apply (callsign_suffix_is_ignored "JK1AZT" "8").
  - discriminate.
  - simpl. intros H. repeat (destruct H as [H|H]; [discriminate|]). exact H.
Defined.

(** X9: [normalizeCallsign] yields a normal form: normalising its result
    again changes nothing. *)
Theorem normalizeCallsign_idempotent (callsign : option string) :
  normalizeCallsign (Some (normalizeCallsign callsign))
  = normalizeCallsign callsign.
Proof.
  destruct (JS.truthy callsign) eqn:Ht.
  - rewrite (normalizeCallsign_spec callsign Ht).
    destruct (JS.truthy (Some (specNormalize (JS.orEmpty callsign)))) eqn:Hn.
    + rewrite (normalizeCallsign_spec _ Hn). apply specNormalize_idempotent.
    + unfold normalizeCallsign at 1. rewrite Hn. cbn [negb].
      unfold JS.truthy in Hn.
      destruct (String.eqb_spec (specNormalize (JS.orEmpty callsign)) "")
        as [E|E]; [symmetry; exact E | discriminate].
  - unfold normalizeCallsign. rewrite Ht. reflexivity.
Qed.

(* ================================================================== *)
(** * Further properties of the novelty index and the dispatch *)

Lemma loopIndex_NoDup st spots :
  NoDup (knownSpotIds st) -> NoDup (loopIndex st spots).
Proof.
  intros Hnd. unfold loopIndex. rewrite collect_index.
  destruct (collect_marks (filterConfig st) spots (knownSpotIds st))
    as [Hm Hiff].
  apply NoDup_app; [exact Hnd | exact Hm |].
  intros id Hin Hmark. apply Hiff in Hmark. tauto.
Qed.

Lemma processSpots_index_invariant st w spots :
  (length (knownSpotIds (fst (processSpots st w spots))) <= 1000)%nat
  /\ (NoDup (knownSpotIds st) ->
      NoDup (knownSpotIds (fst (processSpots st w spots)))).
Proof.
  rewrite processSpots_index, evict_sliceLast. split.
  - rewrite sliceLast_length. lia.
  - intros Hnd. rewrite <- (app_nil_r (JS.sliceLast _ _)).
    apply NoDup_sliceLast_app. rewrite app_nil_r.
    apply loopIndex_NoDup, Hnd.
Qed.

(** X10: the index stays a bounded set: started from an index without
    duplicates and with at most 1000 entries, any sequence of poll cycles
    leaves an index without duplicates and with at most 1000 entries. *)
Theorem index_stays_bounded_set
  (cycles : list (World * list Spot)) (st : AppState) :
  NoDup (knownSpotIds st) ->
  (length (knownSpotIds st) <= 1000)%nat ->
  NoDup (knownSpotIds (fst (runCycles st cycles)))
  /\ (length (knownSpotIds (fst (runCycles st cycles))) <= 1000)%nat.
Proof.
  revert st. induction cycles as [|[w spots] rest IH]; intros st Hnd Hlen.
  - simpl. auto.
  - rewrite runCycles_cons.
    destruct (processSpots_index_invariant st w spots) as [Hl Hn].
    apply IH; auto.
Qed.

Lemma index_stays_bounded_set_witness :
  NoDup (knownSpotIds (fst (runCycles freshState evictionCycles)))
  /\ (length (knownSpotIds (fst (runCycles freshState evictionCycles)))
      <= 1000)%nat.
Proof.
  apply index_stays_bounded_set.
  - constructor.
  - simpl. lia.
Defined.

(** The spots the loop collects are records of the batch that the filter
    accepts and whose identity was not in the index. *)
Lemma collect_filtered cfg (spots : list Spot) :
  forall known s,
    In s (snd (fst (collectNewSpots cfg spots known))) ->
    In s spots /\ cfg <> None /\ applyFilter s cfg = true
    /\ ~ In (spotId s) known.
Proof.
  induction spots as [|spot rest IH]; intros known s.
  - simpl. intros [].
  - destruct (in_dec Z.eq_dec (spotId spot) known) as [Hin|Hnew].
    + rewrite (collect_known cfg spot rest known Hin). intros H.
      apply IH in H. simpl. tauto.
    + rewrite (collect_new cfg spot rest known Hnew). cbn [fst snd].
      assert (Hrest : In s (snd (fst (collectNewSpots cfg rest
                                        (known ++ [spotId spot])))) ->
                      In s (spot :: rest) /\ cfg <> None
                      /\ applyFilter s cfg = true /\ ~ In (spotId s) known).
      { intros H. apply IH in H. destruct H as (H1 & H2 & H3 & H4).
        repeat split; auto. right. exact H1.
        intros Hk. apply H4, in_or_app. left. exact Hk. }
      destruct cfg as [c|]; [|exact Hrest].
      destruct (applyFilter spot (Some c)) eqn:Ha; [|exact Hrest].
      intros [<-|H]; [|exact (Hrest H)].
      repeat split; auto. left. reflexivity. discriminate.
Qed.

(** X11: only accepted, new records of the batch are dispatched: a spot for
    which a poll cycle shows an alert, opens a popup or requests a synthesis
    is a record of the batch, a configuration is loaded and accepts it, and
    its identity was not in the index when the cycle began. *)
Theorem only_accepted_new_records_are_dispatched
  (st : AppState) (w : World) (spots : list Spot) (s : Spot) :
  In (DesktopNotification s) (snd (processSpots st w spots))
  \/ In (PopupWindow s) (snd (processSpots st w spots))
  \/ In (Synthesize s) (snd (processSpots st w spots)) ->
  In s spots
  /\ filterConfig st <> None
  /\ applyFilter s (filterConfig st) = true
  /\ ~ In (spotId s) (knownSpotIds st).
Proof.
  rewrite processSpots_trace. intros H.
  assert (Hd : exists e,
             (e = DesktopNotification s \/ e = PopupWindow s
              \/ e = Synthesize s)
             /\ In e (dispatch st w (newFilteredSpots st spots))).
  { assert (Hany : exists e,
               (e = DesktopNotification s \/ e = PopupWindow s
                \/ e = Synthesize s)
               /\ In e (loopSteps st spots
                        ++ (if (0 <? length (newFilteredSpots st spots))%nat
                            then dispatch st w (newFilteredSpots st spots)
                            else [])))
      by (destruct H as [H|[H|H]]; eauto 6).
    destruct Hany as (e & He & Hin). exists e. split; [exact He|].
    apply in_app_or in Hin. destruct Hin as [Hin|Hin].
    - exfalso. apply collect_steps_kind in Hin.
      destruct Hin as [(id & E)|(x & E)], He as [-> | [-> | ->]]; discriminate.
    - destruct (0 <? length (newFilteredSpots st spots))%nat;
        [exact Hin | destruct Hin]. }
  destruct Hd as (e & He & Hin). apply dispatch_steps in Hin.
  apply (collect_filtered (filterConfig st) spots (knownSpotIds st) s).
  fold (newFilteredSpots st spots).
  destruct Hin as [(p & E & _)|[(x & E & Hx)|[(x & E & Hx)|[(x & E & Hx)|
                  [(a & E)|(m & E)]]]]], He as [-> | [-> | ->]];
    try discriminate; injection E as <-; exact Hx.
Qed.

Lemma only_accepted_new_records_are_dispatched_witness :
  In (bareSpot 11) fiveSpots
  /\ filterConfig cappedState <> None
  /\ applyFilter (bareSpot 11) (filterConfig cappedState) = true
  /\ ~ In (spotId (bareSpot 11)) (knownSpotIds cappedState).
Proof.
  apply (only_accepted_new_records_are_dispatched cappedState calmWorld).
  left. vm_compute. repeat first [left; reflexivity | right].
Defined.

(** A batch of identities that are all in the index takes no step. *)
Lemma collect_all_known cfg (spots : list Spot) (known : list Z) :
  (forall s, In s spots -> In (spotId s) known) ->
  collectNewSpots cfg spots known = (known, [], []).
Proof.
  induction spots as [|spot rest IH]; intros H; [reflexivity|].
  rewrite (collect_known cfg spot rest known) by (apply H; left; reflexivity).
  apply IH. intros s Hs. apply H. right. exact Hs.
Qed.

Lemma loopIndex_covers st spots (s : Spot) :
  In s spots -> In (spotId s) (loopIndex st spots).
Proof.
  intros Hs. unfold loopIndex. rewrite collect_index.
  destruct (collect_marks (filterConfig st) spots (knownSpotIds st)) as [_ Hiff].
  apply in_or_app.
  destruct (in_dec Z.eq_dec (spotId s) (knownSpotIds st)) as [Hk|Hn];
    [left; exact Hk | right].
  apply Hiff. split; [exact Hn|]. apply in_map. exact Hs.
Qed.

(** X12: polling the same batch again does nothing: when the index did not
    overflow (at most 1000 entries after the first pass), processing the
    batch a second time takes no step at all - no marking, no filter
    evaluation, no channel - and leaves the state as it is. *)
Theorem repeated_batch_is_silent
  (st : AppState) (w w' : World) (spots : list Spot) :
  (length (loopIndex st spots) <= 1000)%nat ->
  processSpots (fst (processSpots st w spots)) w' spots
  = (fst (processSpots st w spots), []).
Proof.
  intros Hlen.
  assert (Hst : fst (processSpots st w spots)
                = mkAppState (loopIndex st spots) (filterConfig st)
                             (notificationSettings st)).
  { unfold processSpots, loopIndex in *.
    destruct (collectNewSpots (filterConfig st) spots (knownSpotIds st))
      as [[known fs] steps]. cbn [fst] in *.
    unfold evict. destruct (Nat.ltb_spec 1000 (length known)); [lia|].
    reflexivity. }
  rewrite Hst. unfold processSpots at 1. cbn [filterConfig knownSpotIds].
  rewrite collect_all_known by (intros s Hs; apply loopIndex_covers, Hs).
  cbn [length Nat.ltb Nat.leb app notificationSettings].
  unfold evict. destruct (Nat.ltb_spec 1000 (length (loopIndex st spots)));
    [lia | reflexivity].
Qed.

Lemma repeated_batch_is_silent_witness :
  snd (processSpots (fst (processSpots cappedState calmWorld fiveSpots))
         timeoutWorld fiveSpots) = [].
Proof.
  rewrite (repeated_batch_is_silent cappedState calmWorld timeoutWorld fiveSpots).
  - reflexivity.
  - vm_compute. lia.
Defined.

(** A batch of pairwise different identities none of which is in the index
    is filtered record by record. *)
Lemma collect_fresh_filtered (c : FilterConfig) (spots : list Spot) :
  forall known,
    NoDup (known ++ map spotId spots) ->
    snd (fst (collectNewSpots (Some c) spots known))
    = filter (fun s => applyFilter s (Some c)) spots.
Proof.
  induction spots as [|spot rest IH]; intros known Hnd; [reflexivity|].
  simpl in Hnd.
  assert (Hnew : ~ In (spotId spot) known).
  { apply NoDup_remove_2 in Hnd. intros H. apply Hnd, in_or_app. auto. }
  rewrite (collect_new (Some c) spot rest known Hnew). cbn [fst snd filter].
  rewrite IH by (rewrite <- app_assoc; exact Hnd).
  reflexivity.
Qed.

(** X13: for a batch of records with pairwise different identities none of
    which is in the index, [filteredSpots] is exactly the records the
    configuration accepts, in feed order. *)
Theorem fresh_batch_is_filtered_in_order
  (st : AppState) (c : FilterConfig) (spots : list Spot) :
  filterConfig st = Some c ->
  NoDup (knownSpotIds st ++ map spotId spots) ->
  newFilteredSpots st spots = filter (fun s => applyFilter s (Some c)) spots.
Proof.
  intros Hc Hnd. unfold newFilteredSpots. rewrite Hc.
  apply collect_fresh_filtered, Hnd.
Qed.

Lemma fresh_batch_is_filtered_in_order_witness :
  newFilteredSpots (mkAppState [] (Some reporterCheckConfig) allOn)
                   [ssbSpot; selfSpot; cwSpot]
  = [selfSpot].
Proof.
  rewrite (fresh_batch_is_filtered_in_order _ reporterCheckConfig).
  - reflexivity.
  - reflexivity.
  - simpl. repeat constructor; simpl; intuition discriminate.
Defined.

(** X14: the custom sound and the system sound of a desktop notification
    are never both used: with the sound channel off no custom sound is
    played and notifications are silent; with it on, notifications are
    silent exactly when the custom sound is played. *)
Theorem one_sound_at_most (st : AppState) :
  (soundEnabled (notificationSettings st) = false ->
   handleNotificationSound st = [] /\ shouldSilent st = true)
  /\ (soundEnabled (notificationSettings st) = true ->
      (shouldSilent st = true <->
       exists path, handleNotificationSound st = [PlayNotificationSound path])).
Proof.
  unfold handleNotificationSound, shouldSilent. split; intros ->; cbn [negb].
  - split; [reflexivity | apply orb_true_r].
  - rewrite orb_false_r.
    destruct (JS.truthy (soundPath (filterConfig st))); cbn [negb]; split.
    + intros _. eexists. reflexivity.
    + reflexivity.
    + discriminate.
    + intros (path & H). discriminate.
Qed.

(** X15: a rejected playback ends the speech queue: when the queue reached
    an item, its synthesis succeeded with audio and the playback of that
    audio is rejected, the loop is left with that error and none of the
    items after it is synthesized or played. *)
Theorem playback_rejection_stops_queue
  (w : World) (k : nat) (pre post : list Spot) (spot : Spot)
  (audio reason : string) :
  snd (speakLoop w k pre) = None ->
  synthesizeVoicevox w (k + length pre) = SynthOk audio ->
  audio <> "" ->
  playback w (k + length pre) = Some reason ->
  speakLoop w k (pre ++ spot :: post)
  = (fst (speakLoop w k pre) ++ [Synthesize spot; PlaySpeech audio],
     Some reason).
Proof.
  intros Hpre Hs Ha Hp. rewrite (speakLoop_app w pre (spot :: post) k Hpre).
  simpl. rewrite Hs, Hp.
  destruct (String.eqb_spec audio ""); [contradiction | reflexivity].
Qed.

Lemma playback_rejection_stops_queue_witness :
  speakLoop rejectingWorld 0 (map bareSpot [21; 22; 23]%Z)
  = ([Synthesize (bareSpot 21); PlaySpeech "RIFF";
      Synthesize (bareSpot 22); PlaySpeech "RIFF"], Some "NotAllowedError").
Proof.
  apply (playback_rejection_stops_queue rejectingWorld 0 [bareSpot 21]
           [bareSpot 23] (bareSpot 22) "RIFF" "NotAllowedError");
    try reflexivity.
  discriminate.
Defined.

Lemma synthesizedOf_app (l1 l2 : list Event) :
  synthesizedOf (l1 ++ l2) = synthesizedOf l1 ++ synthesizedOf l2.
Proof. apply flat_map_app. Qed.

(** The items the loop synthesizes are an initial part of its queue. *)
Lemma speakLoop_synthesizes_prefix (w : World) (queue : list Spot) :
  forall k, exists rest,
    queue = synthesizedOf (fst (speakLoop w k queue)) ++ rest.
Proof.
  induction queue as [|spot queue IH]; intros k.
  - exists []. reflexivity.
  - simpl. destruct (IH (S k)) as (rest & Hrest).
    destruct (synthesizeVoicevox w k) as [audio|err].
    + destruct (negb (audio =? "")).
      * destruct (playback w k) as [reason|].
        -- exists queue. reflexivity.
        -- destruct (speakLoop w (S k) queue) as [steps thrown].
           exists rest. simpl in *. congruence.
      * destruct (speakLoop w (S k) queue) as [steps thrown].
        exists rest. simpl in *. congruence.
    + destruct (speakLoop w (S k) queue) as [steps thrown].
      exists rest. simpl in *. congruence.
Qed.

Lemma spotsToRead_prefix (s : VoicevoxSettings) (spots : list Spot) :
  exists rest, spots = spotsToRead s spots ++ rest.
Proof.
  unfold spotsToRead, JS.sliceHead.
  destruct (0 <? orZero (maxSpotsPerRead s))%Z.
  - eexists. symmetry. apply firstn_skipn.
  - exists []. symmetry. apply app_nil_r.
Qed.

Lemma spotsToRead_length (s : VoicevoxSettings) (spots : list Spot) (cap : Z) :
  maxSpotsPerRead s = Some cap -> (0 < cap)%Z ->
  (length (spotsToRead s spots) <= Z.to_nat cap)%nat.
Proof.
  intros Hc Hpos. unfold spotsToRead, JS.sliceHead. rewrite Hc. simpl.
  destruct (Z.ltb_spec 0 cap); [|lia]. rewrite length_firstn. lia.
Qed.

(** What the speech step synthesizes is what its loop synthesizes. *)
Lemma speechSteps_synthesized st w fs :
  speechSteps st w fs = []
  \/ synthesizedOf (speechSteps st w fs)
     = synthesizedOf
         (fst (speakLoop w 0 (spotsToRead (voicevoxSettings w) fs))).
Proof.
  unfold speechSteps, speakMultipleSpotsWithVoicevox.
  destruct (audioTarget w); [|left; reflexivity].
  destruct (negb (voicevoxEnabled (notificationSettings st))
            || (length fs =? 0)%nat); [left; reflexivity|].
  destruct (negb (speakerSet (voicevoxSettings w))); [left; reflexivity|].
  right.
  destruct (speakLoop w 0 (spotsToRead (voicevoxSettings w) fs))
    as [steps [err|]]; cbn [fst].
  - rewrite synthesizedOf_app. simpl. apply app_nil_r.
  - reflexivity.
Qed.

(** X16: the speech channel reads the head of the filtered list: the spots
    it hands to synthesis are an initial part of [filteredSpots], in order
    and without gaps, and when [maxSpotsPerRead] is a positive cap they are
    at most that many. *)
Theorem speech_reads_a_capped_head
  (st : AppState) (w : World) (fs : list Spot) :
  (exists rest, fs = synthesizedOf (speechSteps st w fs) ++ rest)
  /\ (forall cap,
        maxSpotsPerRead (voicevoxSettings w) = Some cap -> (0 < cap)%Z ->
        (length (synthesizedOf (speechSteps st w fs)) <= Z.to_nat cap)%nat).
Proof.
  destruct (speechSteps_synthesized st w fs) as [E|E]; rewrite E.
  - split; [exists fs; reflexivity | intros; simpl; lia].
  - destruct (speakLoop_synthesizes_prefix w
                (spotsToRead (voicevoxSettings w) fs) 0) as (r1 & H1).
    destruct (spotsToRead_prefix (voicevoxSettings w) fs) as (r2 & H2).
    split.
    + exists (r1 ++ r2). rewrite app_assoc, <- H1. exact H2.
    + intros cap Hc Hpos.
      pose proof (spotsToRead_length (voicevoxSettings w) fs cap Hc Hpos) as L.
      rewrite H1 in L at 1. rewrite length_app in L. lia.
Qed.

Lemma speech_reads_a_capped_head_witness :
  synthesizedOf (speechSteps cappedState rejectingWorld fiveSpots)
  = [bareSpot 11; bareSpot 12]
  /\ (length (synthesizedOf (speechSteps cappedState rejectingWorld fiveSpots))
      <= 2)%nat.
Proof.
  split; [reflexivity|].
  destruct (speech_reads_a_capped_head cappedState rejectingWorld fiveSpots)
    as [_ H].
  apply (H 2%Z); [reflexivity | lia].
Defined.

(** X17: the speech channel acts only when everything it needs is there: a
    speech step in a poll cycle means the channel is switched on, a window
    to play in exists, the filtered list is not empty and a speaker other
    than 0 is chosen; in particular nothing is synthesized under the
    settings used when the settings file cannot be read. *)
Theorem speech_needs_everything (st : AppState) (w : World) (fs : list Spot) :
  speechSteps st w fs <> [] ->
  voicevoxEnabled (notificationSettings st) = true
  /\ audioTarget w = true
  /\ fs <> []
  /\ (exists n, speakerId (voicevoxSettings w) = Some n /\ n <> 0%Z)
  /\ voicevoxSettings w <> loadVoicevoxSettings None.
Proof.
  unfold speechSteps, speakMultipleSpotsWithVoicevox, speakerSet.
  destruct (audioTarget w); [|congruence].
  destruct (voicevoxEnabled (notificationSettings st));
    [|simpl; congruence].
  destruct fs as [|s fs]; [simpl; congruence|]. cbn [negb orb length Nat.eqb].
  destruct (speakerId (voicevoxSettings w)) as [n|] eqn:Hsp;
    [|simpl; congruence].
  destruct (Z.eqb_spec n 0) as [->|Hn]; [simpl; congruence|].
  intros _. repeat split; try discriminate.
  - exists n. auto.
  - intros E. rewrite E in Hsp. discriminate.
Qed.

Lemma speech_needs_everything_witness :
  voicevoxEnabled (notificationSettings cappedState) = true
  /\ audioTarget timeoutWorld = true
  /\ fiveSpots <> []
  /\ (exists n, speakerId (voicevoxSettings timeoutWorld) = Some n /\ n <> 0%Z)
  /\ voicevoxSettings timeoutWorld <> loadVoicevoxSettings None.
Proof.
  apply (speech_needs_everything cappedState timeoutWorld fiveSpots).
  vm_compute. discriminate.
Defined.

(* ================================================================== *)
(** * Properties of the text helpers *)

Lemma chars_app (a b : string) :
  list_ascii_of_string (String.append a b)
  = list_ascii_of_string a ++ list_ascii_of_string b.
Proof. induction a as [|c a IH]; simpl; [reflexivity|]. rewrite IH. reflexivity. Qed.

Lemma append_assoc (a b c : string) :
  String.append (String.append a b) c = String.append a (String.append b c).
Proof. induction a as [|x a IH]; simpl; [reflexivity|]. rewrite IH. reflexivity. Qed.

Lemma replaceChar_app (p : ascii) (r a b : string) :
  replaceChar p r (String.append a b)
  = String.append (replaceChar p r a) (replaceChar p r b).
Proof.
  induction a as [|c a IH]; simpl; [reflexivity|].
  destruct (Ascii.eqb c p); simpl; rewrite IH; [|reflexivity].
  symmetry. apply append_assoc.
Qed.

Lemma replaceDigits_app (a b : string) :
  replaceDigits (String.append a b)
  = String.append (replaceDigits a) (replaceDigits b).
Proof.
  induction a as [|c a IH]; simpl; [reflexivity|].
  destruct (isDigit c); simpl; rewrite IH; [|reflexivity].
  symmetry. apply append_assoc.
Qed.

Lemma convertNumbersToEnglish_replaceDigits (text : string) :
  convertNumbersToEnglish text = replaceDigits text.
Proof.
  unfold convertNumbersToEnglish.
  destruct (String.eqb_spec text "") as [->|_]; reflexivity.
Qed.

(** The word a digit is spelled with holds no digit and no [/]. *)
Lemma digitWord_clean (d : ascii) :
  implb (isDigit d)
        (forallb (fun x => negb (isDigit x) && negb (Ascii.eqb x "/"))
                 (list_ascii_of_string (digitWord d))) = true.
Proof. destruct d as [[] [] [] [] [] [] [] []]; vm_compute; reflexivity. Qed.

(** Slashes in a digit word: there are none to replace. *)
Lemma digitWord_no_slash (d : ascii) (r : string) :
  isDigit d = true -> replaceChar "/" r (digitWord d) = digitWord d.
Proof.
  destruct d as [[] [] [] [] [] [] [] []]; intros H;
    try (vm_compute in H; discriminate H); reflexivity.
Qed.

(** Where the characters of [replaceDigits text] come from. *)
Lemma replaceDigits_chars (text : string) (c : ascii) :
  In c (list_ascii_of_string (replaceDigits text)) ->
  (In c (list_ascii_of_string text) /\ isDigit c = false)
  \/ (isDigit c = false /\ c <> "/"%char).
Proof.
  induction text as [|x text IH]; simpl; [intros []|].
  destruct (isDigit x) eqn:Hx.
  - rewrite chars_app. intros H. apply in_app_or in H. destruct H as [H|H].
    + right. pose proof (digitWord_clean x) as Hc. rewrite Hx in Hc.
      simpl in Hc. rewrite forallb_forall in Hc. specialize (Hc c H).
      apply andb_prop in Hc. destruct Hc as [H1 H2].
      apply negb_true_iff in H1, H2. split; [exact H1|].
      intros ->. discriminate.
    + destruct (IH H) as [[H1 H2]|H1]; [left; auto | right; exact H1].
  - simpl. intros [<-|H]; [left; auto|].
    destruct (IH H) as [[H1 H2]|H1]; [left; auto | right; exact H1].
Qed.

(** X18: [convertNumbersToEnglish] spells every digit out: its result holds
    no digit 0-9, a text without digits is returned unchanged, and
    converting a concatenation is concatenating the conversions. *)
Theorem convertNumbersToEnglish_spells_digits :
  (forall text c,
      In c (list_ascii_of_string (convertNumbersToEnglish text)) ->
      isDigit c = false)
  /\ (forall text,
        (forall c, In c (list_ascii_of_string text) -> isDigit c = false) ->
        convertNumbersToEnglish text = text)
  /\ (forall a b,
        convertNumbersToEnglish (String.append a b)
        = String.append (convertNumbersToEnglish a)
                        (convertNumbersToEnglish b)).
Proof.
  repeat apply conj.
  - intros text c. rewrite convertNumbersToEnglish_replaceDigits.
    intros H. apply replaceDigits_chars in H. tauto.
  - intros text. rewrite convertNumbersToEnglish_replaceDigits.
    induction text as [|x text IH]; simpl; intros H; [reflexivity|].
    rewrite (H x) by auto. rewrite IH; auto.
  - intros a b. rewrite !convertNumbersToEnglish_replaceDigits.
    apply replaceDigits_app.
Qed.

Lemma replaceChar_chars (p : ascii) (r s : string) (c : ascii) :
  In c (list_ascii_of_string (replaceChar p r s)) ->
  (In c (list_ascii_of_string s) /\ c <> p)
  \/ In c (list_ascii_of_string r).
Proof.
  induction s as [|x s IH]; simpl; [intros []|].
  destruct (Ascii.eqb_spec x p) as [->|Hx].
  - rewrite chars_app. intros H. apply in_app_or in H.
    destruct H as [H|H]; [right; exact H|].
    destruct (IH H) as [[H1 H2]|H1]; [left; auto | right; exact H1].
  - simpl. intros [<-|H]; [left; auto|].
    destruct (IH H) as [[H1 H2]|H1]; [left; auto | right; exact H1].
Qed.

Lemma portable_word_clean (c : ascii) :
  In c (list_ascii_of_string "ポータブル") ->
  isDigit c = false /\ c <> "/"%char.
Proof.
  simpl. intros H.
  repeat (destruct H as [<-|H]; [split; [reflexivity | discriminate]|]).
  destruct H.
Qed.

Lemma replaceDigits_portable_word :
  replaceDigits "ポータブル" = "ポータブル".
Proof. reflexivity. Qed.

Lemma digits_and_portable_commute (s : string) :
  replaceDigits (replaceChar "/" "ポータブル" s)
  = replaceChar "/" "ポータブル" (replaceDigits s).
Proof.
  induction s as [|c s IH]; [reflexivity|].
  cbn [replaceChar replaceDigits].
  destruct (Ascii.eqb_spec c "/") as [->|Hc].
  - change (isDigit "/") with false. cbn [replaceChar].
    change (Ascii.eqb "/" "/") with true.
    rewrite replaceDigits_app, replaceDigits_portable_word, IH. reflexivity.
  - destruct (isDigit c) eqn:Hd.
    + cbn [replaceDigits]. rewrite Hd, replaceChar_app, IH.
      rewrite (digitWord_no_slash c _ Hd). reflexivity.
    + cbn [replaceDigits replaceChar]. rewrite Hd.
      destruct (Ascii.eqb_spec c "/"); [contradiction|].
      rewrite IH. reflexivity.
Qed.

(** X19: the spoken activator: with the portable option on, the text holds
    no [/]; with the digit option on, it holds no digit; and the two
    replacements can be done in either order. *)
Theorem spokenActivator_is_clean :
  (forall numberEnglishEnabled activator c,
      In c (list_ascii_of_string
              (spokenActivator true numberEnglishEnabled activator)) ->
      c <> "/"%char)
  /\ (forall portableEnabled activator c,
        In c (list_ascii_of_string
                (spokenActivator portableEnabled true activator)) ->
        isDigit c = false)
  /\ (forall s,
        convertNumbersToEnglish (replaceChar "/" "ポータブル" s)
        = replaceChar "/" "ポータブル" (convertNumbersToEnglish s)).
Proof.
  repeat apply conj.
  - intros ne activator c. unfold spokenActivator.
    assert (Hp : forall x,
               In x (list_ascii_of_string
                       (replaceChar "/" "ポータブル" (JS.orEmpty activator))) ->
               x <> "/"%char).
    { intros x Hx. apply replaceChar_chars in Hx.
      destruct Hx as [[_ Hx]|Hx]; [exact Hx | apply portable_word_clean, Hx]. }
    destruct ne; [|apply Hp].
    rewrite convertNumbersToEnglish_replaceDigits. intros H.
    apply replaceDigits_chars in H.
    destruct H as [[H _]|[_ H]]; [apply Hp, H | exact H].
  - intros pe activator c. unfold spokenActivator.
    rewrite convertNumbersToEnglish_replaceDigits. intros H.
    apply replaceDigits_chars in H. tauto.
  - intros s. rewrite !convertNumbersToEnglish_replaceDigits.
    apply digits_and_portable_commute.
Qed.

Section SpaceNormalisation.



Lemma spaced_weaken (s : string) :
  spaced true s = true -> spaced false s = true.
Proof.
  destruct s as [|c s]; simpl; [reflexivity|].
  destruct (JS.isWhiteSpace c); [|auto].
  rewrite andb_false_r. discriminate.
Qed.







End SpaceNormalisation.


Lemma escapeOne_clean (c : ascii) :
  forallb (fun x => negb (isMarkup x)) (list_ascii_of_string (escapeOne c))
  = true.
Proof. destruct c as [[] [] [] [] [] [] [] []]; reflexivity. Qed.

Lemma escapeOne_passes (c : ascii) :
  replaceChar "'" "&#039;"
    (replaceChar "034" "&quot;"
       (replaceChar ">" "&gt;"
          (replaceChar "<" "&lt;"
             (replaceChar "&" "&amp;" (String c EmptyString)))))
  = escapeOne c.
Proof. destruct c as [[] [] [] [] [] [] [] []]; reflexivity. Qed.

(** The five replacements, done one after the other on the whole text, are
    what escaping each character on its own gives. *)
Lemma five_passes_escapeEach (s : string) :
  replaceChar "'" "&#039;"
    (replaceChar "034" "&quot;"
       (replaceChar ">" "&gt;"
          (replaceChar "<" "&lt;"
             (replaceChar "&" "&amp;" s))))
  = escapeEach s.
Proof.
  induction s as [|c s IH]; [reflexivity|].
  change (String c s) with (String.append (String c EmptyString) s).
  rewrite !replaceChar_app, IH, escapeOne_passes. reflexivity.
Qed.

Lemma escapeEach_clean (s : string) (c : ascii) :
  In c (list_ascii_of_string (escapeEach s)) -> isMarkup c = false.
Proof.
  induction s as [|x s IH]; simpl; [intros []|].
  rewrite chars_app. intros H. apply in_app_or in H. destruct H as [H|H].
  - pose proof (escapeOne_clean x) as Hc. rewrite forallb_forall in Hc.
    apply negb_true_iff, Hc, H.
  - apply IH, H.
Qed.

(** X21: [escapeHtml] of main.js escapes in one sweep: the five successive
    replacements give exactly the text in which each character is replaced
    by its own entity (an ampersand written by an earlier replacement is
    never escaped again); the result holds none of the characters less-than,
    greater-than, double quote and apostrophe; a text without these and
    without ampersand is returned unchanged; and an absent or empty text
    gives the empty text. *)
Theorem escapeHtml_single_sweep :
  (forall s, escapeHtml (Some s) = escapeEach s)
  /\ (forall text c,
        In c (list_ascii_of_string (escapeHtml text)) -> isMarkup c = false)
  /\ (forall s,
        (forall c, In c (list_ascii_of_string s) ->
                   isMarkup c = false /\ c <> "&"%char) ->
        escapeHtml (Some s) = s)
  /\ escapeHtml None = "".
Proof.
  assert (H1 : forall s, escapeHtml (Some s) = escapeEach s).
  { intros s. unfold escapeHtml. destruct s as [|c s]; [reflexivity|].
    cbn [JS.truthy String.eqb negb JS.orEmpty]. apply five_passes_escapeEach. }
  repeat apply conj.
  - exact H1.
  - intros [s|] c; [rewrite H1; apply escapeEach_clean | intros []].
  - intros s. rewrite H1. induction s as [|x s IH]; simpl; intros H;
      [reflexivity|].
    destruct (H x (or_introl eq_refl)) as [Hm Ha].
    assert (Hx : escapeOne x = String x EmptyString).
    { unfold isMarkup in Hm. unfold escapeOne.
      destruct (Ascii.eqb_spec x "&"); [contradiction|].
      destruct (Ascii.eqb x "<"), (Ascii.eqb x ">"), (Ascii.eqb x "034"),
               (Ascii.eqb x "'"); try discriminate; reflexivity. }
    rewrite Hx. simpl. rewrite IH; auto.
  - reflexivity.
Qed.

(* ================================================================== *)
(** * Properties of the configuration handling *)

Lemma applyFilter_fillDefaults (spot : Spot) (c : FilterConfig) :
  applyFilter spot (Some (fillDefaults c)) = applyFilter spot (Some c).
Proof.
  unfold applyFilter, excludeHit, excludeConditions, fillDefaults.
  destruct (ignoreOtherSpotters c) as [[|]|]; reflexivity.
Qed.

(** X22: the defaults [loadConfig] fills in are the values the pipeline
    assumes for missing keys anyway: filling them in changes neither the
    verdict of [applyFilter] nor the alert and popup slices nor the sound
    file; and when the file is missing or broken the configuration in force
    accepts every record, caps nothing and has no custom sound. *)
Theorem loadConfig_defaults_are_neutral :
  (forall document spot fs,
      applyFilter spot (Some (loadConfig (Parsed document)))
      = applyFilter spot (Some document)
      /\ notificationSpots (Some (loadConfig (Parsed document))) fs
         = notificationSpots (Some document) fs
      /\ popupSpots (Some (loadConfig (Parsed document))) fs
         = popupSpots (Some document) fs
      /\ soundPath (Some (loadConfig (Parsed document)))
         = soundPath (Some document))
  /\ (forall file spot fs,
        file = Missing \/ file = Broken ->
        applyFilter spot (Some (loadConfig file)) = true
        /\ notificationSpots (Some (loadConfig file)) fs = fs
        /\ popupSpots (Some (loadConfig file)) fs = fs
        /\ soundPath (Some (loadConfig file)) = None).
Proof.
  split.
  - intros document spot fs. cbn [loadConfig]. repeat apply conj.
    + apply applyFilter_fillDefaults.
    + unfold notificationSpots, fillDefaults. cbn [maxNotificationCount].
      destruct (maxNotificationCount document); reflexivity.
    + unfold popupSpots, fillDefaults. cbn [maxPopupCount].
      destruct (maxPopupCount document); reflexivity.
    + reflexivity.
  - intros file spot fs [-> | ->]; repeat apply conj; reflexivity.
Qed.

Lemma loadConfig_defaults_are_neutral_witness :
  applyFilter ssbSpot (Some (loadConfig (Parsed oldDocument)))
  = applyFilter ssbSpot (Some oldDocument)
  /\ applyFilter ssbSpot (Some (loadConfig Missing)) = true.
Proof.
  destruct loadConfig_defaults_are_neutral as [H1 H2]. split.
  - apply (H1 oldDocument ssbSpot []).
  - apply (H2 Missing ssbSpot []). left. reflexivity.
Defined.

Lemma defaultEnabled_flags (c : FilterCondition) :
  isInclude (defaultEnabled c) = isInclude c
  /\ isExclude (defaultEnabled c) = isExclude c
  /\ forall fv, checkConditionMatch fv (Some (defaultEnabled c))
                = checkConditionMatch fv (Some c).
Proof.
  unfold defaultEnabled, isInclude, isExclude, notDisabled.
  destruct (enabled c) as [[|]|] eqn:E; repeat split; simpl; rewrite ?E;
    reflexivity.
Qed.

Lemma filter_map_same {A} (f : A -> bool) (g : A -> A) (l : list A) :
  (forall x, f (g x) = f x) -> filter f (map g l) = map g (filter f l).
Proof.
  intros H. induction l as [|a l IH]; simpl; [reflexivity|].
  rewrite H. destruct (f a); simpl; rewrite IH; reflexivity.
Qed.

Lemma existsb_map_same {A} (f : A -> bool) (g : A -> A) (l : list A) :
  (forall x, f (g x) = f x) -> existsb f (map g l) = existsb f l.
Proof.
  intros H. induction l as [|a l IH]; simpl; [reflexivity|].
  rewrite H, IH. reflexivity.
Qed.

Lemma forallb_map_same {A} (f : A -> bool) (g : A -> A) (l : list A) :
  (forall x, f (g x) = f x) -> forallb f (map g l) = forallb f l.
Proof.
  intros H. induction l as [|a l IH]; simpl; [reflexivity|].
  rewrite H, IH. reflexivity.
Qed.

Lemma applyFieldFilter_rendered fv f :
  applyFieldFilter fv (renderedField f) = applyFieldFilter fv f.
Proof.
  destruct f as [f|]; [|reflexivity]. cbn [renderedField].
  destruct (conditions f) as [conds|] eqn:Hc.
  - rewrite (applyFieldFilter_includes fv
               (mkFieldFilter (option_map (map defaultEnabled) (Some conds))
                              (operator f))
               (map defaultEnabled conds) eq_refl).
    rewrite (applyFieldFilter_includes fv f conds Hc). cbn [operator].
    rewrite (filter_map_same isInclude defaultEnabled)
      by (intros x; apply defaultEnabled_flags).
    destruct (filter isInclude conds) as [|c incl] eqn:Ef; [reflexivity|].
    rewrite <- Ef. destruct (map defaultEnabled (filter isInclude conds))
      as [|c' incl'] eqn:Em; [rewrite Ef in Em; discriminate|].
    rewrite <- Em.
    rewrite (forallb_map_same _ defaultEnabled)
      by (intros x; apply defaultEnabled_flags).
    rewrite (existsb_map_same _ defaultEnabled)
      by (intros x; apply defaultEnabled_flags).
    rewrite Ef. reflexivity.
  - unfold applyFieldFilter. cbn [conditions option_map]. rewrite Hc.
    reflexivity.
Qed.

Lemma excludeHit_rendered spot c :
  excludeHit spot (renderedConfig c) = excludeHit spot c.
Proof.
  unfold excludeHit, fields. cbn [existsb].
  assert (H : forall field,
             existsb (fun condition =>
                        checkConditionMatch
                          (Some (JS.orEmpty (spotField spot field)))
                          (Some condition))
                     (excludeConditions (renderedConfig c) field)
             = existsb (fun condition =>
                          checkConditionMatch
                            (Some (JS.orEmpty (spotField spot field)))
                            (Some condition))
                       (excludeConditions c field)).
  { intros field. unfold excludeConditions.
    assert (E : configField (renderedConfig c) field
                = renderedField (configField c field))
      by (destruct field; reflexivity).
    rewrite E. destruct (configField c field) as [f|]; [|reflexivity].
    cbn [renderedField conditions].
    destruct (conditions f) as [conds|]; [|reflexivity]. cbn [option_map].
    rewrite (filter_map_same isExclude defaultEnabled)
      by (intros x; apply defaultEnabled_flags).
    apply existsb_map_same. intros x. apply defaultEnabled_flags. }
  rewrite !H. reflexivity.
Qed.

(** X23: the settings screen and the filter agree on conditions without the
    key [enabled]: the screen shows and stores them as enabled, and doing
    so never changes the verdict of [applyFilter]. *)
Theorem rendering_keeps_verdicts (spot : Spot) (c : FilterConfig) :
  applyFilter spot (Some (renderedConfig c)) = applyFilter spot (Some c).
Proof.
  unfold applyFilter.
  change (ignoreOtherSpotters (renderedConfig c)) with (ignoreOtherSpotters c).
  destruct (JS.truthyb (ignoreOtherSpotters c)
            && negb (callsignsMatch (activator spot) (spotter spot)));
    [reflexivity|].
  rewrite excludeHit_rendered. destruct (excludeHit spot c); [reflexivity|].
  cbn [renderedConfig filter_reference filter_comments filter_mode
       filter_frequency].
  rewrite !applyFieldFilter_rendered. reflexivity.
Qed.

Lemma savedConditions_kept (conds : list FilterCondition) (c : FilterCondition) :
  In c (savedConditions conds) ->
  In c conds /\ exists v, value c = Some v /\ JS.trim v <> "".
Proof.
  unfold savedConditions. intros H. apply filter_In in H.
  destruct H as [Hin Hp]. split; [exact Hin|].
  unfold hasPattern in Hp. apply andb_prop in Hp. destruct Hp as [Ht Hb].
  destruct (value c) as [v|]; [|discriminate]. exists v. split; [reflexivity|].
  simpl in Hb. intros E. rewrite E in Hb. discriminate.
Qed.

(** X24: what [saveSettings] stores: every stored condition has a pattern
    that is not blank, a stored list is stored unchanged when saved again,
    and a condition that was added and never edited is not stored. *)
Theorem saved_conditions_have_patterns (conds : list FilterCondition) :
  (forall c, In c (savedConditions conds) ->
             In c conds /\ exists v, value c = Some v /\ JS.trim v <> "")
  /\ savedConditions (savedConditions conds) = savedConditions conds
  /\ savedConditions (addCondition conds) = savedConditions conds.
Proof.
  repeat apply conj.
  - apply savedConditions_kept.
  - unfold savedConditions. apply filter_filter_implied. auto.
  - unfold savedConditions, addCondition. rewrite filter_app. simpl.
    apply app_nil_r.
Qed.

Lemma removeCondition_last (conds : list FilterCondition) (c : FilterCondition) :
  removeCondition (conds ++ [c]) (length conds) = conds.
Proof.
  unfold removeCondition.
  assert (Hf : firstn (length conds) (conds ++ [c]) = conds).
  { rewrite firstn_app, Nat.sub_diag, firstn_all. cbn [firstn].
    apply app_nil_r. }
  assert (Hs : skipn (S (length conds)) (conds ++ [c]) = []).
  { apply skipn_all2. rewrite length_app. cbn [length]. lia. }
  rewrite Hf, Hs, length_app. cbn [length].
  destruct (Nat.ltb_spec (length conds) (length conds + 1)); [|lia].
  apply app_nil_r.
Qed.

Lemma updateCondition_length conds : forall index e,
  length (updateCondition conds index e) = length conds.
Proof.
  induction conds as [|c conds IH]; intros [|i] e; simpl; auto.
Qed.

Lemma updateCondition_nth conds : forall index e d,
  (index < length conds)%nat ->
  nth index (updateCondition conds index e) d
  = applyEdit e (nth index conds d).
Proof.
  induction conds as [|c conds IH]; intros [|i] e d; simpl; intros H;
    try lia; [reflexivity|].
  apply IH. lia.
Qed.

Lemma updateCondition_other conds : forall index e j d,
  j <> index ->
  nth j (updateCondition conds index e) d = nth j conds d.
Proof.
  induction conds as [|c conds IH]; intros [|i] e [|j] d; simpl; intros H;
    try reflexivity; try congruence.
  apply IH. congruence.
Qed.

Lemma updateCondition_out_of_range conds : forall index e,
  (length conds <= index)%nat -> updateCondition conds index e = conds.
Proof.
  induction conds as [|c conds IH]; intros [|i] e; simpl; intros H;
    try reflexivity; try lia.
  rewrite IH by lia. reflexivity.
Qed.

(** X25: editing the condition list: removing the condition just added
    gives the list back; removing or updating at an index that holds no
    condition changes nothing; removing at a valid index shortens the list by
    one; and an update changes the condition at its index, as edited, and no
    other. *)
Theorem condition_list_edits (conds : list FilterCondition) :
  removeCondition (addCondition conds) (length conds) = conds
  /\ (forall index,
        (length conds <= index)%nat ->
        removeCondition conds index = conds
        /\ forall e, updateCondition conds index e = conds)
  /\ (forall index,
        (index < length conds)%nat ->
        S (length (removeCondition conds index)) = length conds)
  /\ (forall index e j d,
        (index < length conds)%nat ->
        length (updateCondition conds index e) = length conds
        /\ nth index (updateCondition conds index e) d
           = applyEdit e (nth index conds d)
        /\ (j <> index ->
            nth j (updateCondition conds index e) d = nth j conds d)).
Proof.
  repeat apply conj.
  - apply removeCondition_last.
  - intros index H. split.
    + unfold removeCondition.
      destruct (Nat.ltb_spec index (length conds)); [lia | reflexivity].
    + intros e. apply updateCondition_out_of_range, H.
  - intros index H. unfold removeCondition.
    destruct (Nat.ltb_spec index (length conds)); [|lia].
    rewrite length_app, length_firstn, length_skipn. lia.
  - intros index e j d H. repeat split.
    + apply updateCondition_length.
    + apply updateCondition_nth, H.
    + apply updateCondition_other.
Qed.
